(** * aioredis.util: command encoding, reply adapters and scan iterators

    A shallow embedding of [aioredis/util.py] and the properties of its
    functions.  Python values are an inductive type, exceptions are the
    left summand of a result type, the process-wide [lru_cache] of
    [_bytes_len] is an explicit state threaded through [encode_command],
    and a scan primitive is a transition function on a state of its own. *)

From Stdlib Require Import Strings.Byte Strings.Ascii Strings.String.
From Stdlib Require Import Numbers.DecimalString Numbers.DecimalZ.
From Stdlib Require Import ZArith NArith PArith List Bool Lia.
Import ListNotations.

Local Open Scope Z_scope.

(** ** Bytes *)

Definition bytes := list byte.

(** A bytes literal written with ASCII characters. *)
Definition b (s : string) : bytes := list_byte_of_string s.

Definition CRLF : bytes := [x0d; x0a].

Definition byte_of_N (n : N) : byte :=
  match Byte.of_N n with Some c => c | None => x00 end.

Definition bytes_eqb (x y : bytes) : bool :=
  if list_eq_dec Byte.byte_eq_dec x y then true else false.

(** ** Decimal text of an integer: [str(n).encode('utf-8')] *)

Module Dec.

Fixpoint uint_bytes (u : Decimal.uint) : bytes :=
  match u with
  | Decimal.Nil => []
  | Decimal.D0 u => x30 :: uint_bytes u
  | Decimal.D1 u => x31 :: uint_bytes u
  | Decimal.D2 u => x32 :: uint_bytes u
  | Decimal.D3 u => x33 :: uint_bytes u
  | Decimal.D4 u => x34 :: uint_bytes u
  | Decimal.D5 u => x35 :: uint_bytes u
  | Decimal.D6 u => x36 :: uint_bytes u
  | Decimal.D7 u => x37 :: uint_bytes u
  | Decimal.D8 u => x38 :: uint_bytes u
  | Decimal.D9 u => x39 :: uint_bytes u
  end.

(** [str(z)] for a Python int, as ASCII bytes. *)
Definition int_str (z : Z) : bytes :=
  match Z.to_int z with
  | Decimal.Pos u => uint_bytes u
  | Decimal.Neg u => x2d :: uint_bytes u
  end.

End Dec.

(** ** Text: a Python [str] is a sequence of Unicode code points *)

Definition codepoint := N.
Definition text := list codepoint.

(** A [str] literal written with ASCII characters. *)
Definition t (s : string) : text := map N_of_ascii (list_ascii_of_string s).

Definition text_eqb (x y : text) : bool :=
  if list_eq_dec N.eq_dec x y then true else false.

Module Utf8.

Local Open Scope N_scope.

Definition is_surrogate (c : codepoint) : bool :=
  (55296 <=? c) && (c <=? 57343).

(** The continuation byte carrying bits [6k+5 .. 6k] of [c]. *)
Definition cont (c : codepoint) (k : N) : byte :=
  byte_of_N (N.lor 128 (N.land (N.shiftr c (6 * k)) 63)).

(** The UTF-8 bytes of one code point; [None] where the codec refuses it
    (a lone surrogate; a number that is no code point). *)
Definition encode_char (c : codepoint) : option bytes :=
  if c <? 128 then Some [byte_of_N c]
  else if c <? 2048 then Some [byte_of_N (N.lor 192 (N.shiftr c 6)); cont c 0]
  else if is_surrogate c then None
  else if c <? 65536 then
    Some [byte_of_N (N.lor 224 (N.shiftr c 12)); cont c 1; cont c 0]
  else if c <? 1114112 then
    Some [byte_of_N (N.lor 240 (N.shiftr c 18)); cont c 2; cont c 1; cont c 0]
  else None.

(** [s.encode('utf-8')]: the bytes, or the first code point refused. *)
Fixpoint encode (s : text) : codepoint + bytes :=
  match s with
  | [] => inr []
  | c :: s' =>
      match encode_char c with
      | None => inl c
      | Some bs =>
          match encode s' with
          | inl e => inl e
          | inr r => inr (bs ++ r)
          end
      end
  end.

Definition encodable (s : text) : Prop :=
  Forall (fun c => encode_char c <> None) s.

End Utf8.

(** ** Floats: IEEE 754 binary64 values and their [str]

    [str] of a float is a builtin of the interpreter, not code of this
    module: [FloatRepr] models it (the shortest decimal that reads back as
    the same binary64 number, laid out as [repr] does). *)

Inductive pyfloat :=
| FNan
| FInf (neg : bool)
| FZero (neg : bool)
| FNum (neg : bool) (m : positive) (e : Z).   (* (-1)^neg * m * 2^e *)

Module FloatRepr.

(** The binary64 form of [m * 2^e]: the significand on 53 bits, or the
    exponent at its minimum for a subnormal. *)
Definition normalize (m : positive) (e : Z) : Z * Z :=
  let e' := Z.max (e + Z.log2 (Z.pos m) - 52) (-1074) in
  (Z.shiftl (Z.pos m) (e - e'), e').

(** A binary64 number: the shift of [normalize] loses no bit and the
    value is below 2^1024. *)
Definition valid (m : positive) (e : Z) : bool :=
  let '(m', e') := normalize m e in
  (Z.shiftl m' (e' - e) =? Z.pos m) && (m' <? 2 ^ 53) && (e' <=? 971).

(** Floor of the decimal logarithm of [n / d], for positive [n] and [d]. *)
Fixpoint adjust_up (fuel : nat) (n d k : Z) : Z :=
  match fuel with
  | O => k
  | S f =>
      (* is 10^(k+1) <= n/d ? *)
      let k1 := k + 1 in
      if (if 0 <=? k1 then 10 ^ k1 * d <=? n else d <=? n * 10 ^ (- k1))
      then adjust_up f n d k1 else k
  end.

Definition log10_floor (n d : Z) : Z :=
  let est := ((Z.log2 n - Z.log2 d - 1) * 30102) / 100000 - 1 in
  adjust_up 8 n d est.

(** One candidate: the decimal [q * 10^p] against the interval
    [(lo, hi)] (closed when [closed]) around [v], all over [d]. *)
Record cand := { c_q : Z; c_in : bool; c_dist : Z }.

Definition candidate (v lo hi d : Z) (closed : bool) (p q : Z) : cand :=
  let a := if 0 <=? p then 10 ^ p else 1 in
  let s := if 0 <=? p then 1 else 10 ^ (- p) in
  let x := q * a * d in
  let inside :=
    if closed then (lo * s <=? x) && (x <=? hi * s)
    else (lo * s <? x) && (x <? hi * s) in
  {| c_q := q; c_in := inside; c_dist := Z.abs (x - v * s) |}.

(** The shortest decimal that reads back as the float: for k = 1, 2, ...
    significant digits, the two k-digit decimals around the value; the
    first k with one inside the rounding interval wins, the nearer of two. *)
Fixpoint shortest (fuel : nat) (v lo hi d : Z) (closed : bool) (p : Z) : Z * Z :=
  let a := if 0 <=? p then 10 ^ p else 1 in
  let s := if 0 <=? p then 1 else 10 ^ (- p) in
  let q := (v * s) / (a * d) in
  let c1 := candidate v lo hi d closed p q in
  let c2 := candidate v lo hi d closed p (q + 1) in
  match fuel with
  | O => (q, p)
  | S f =>
      match c_in c1, c_in c2 with
      | true, true => if c_dist c2 <? c_dist c1 then (q + 1, p) else (q, p)
      | true, false => (q, p)
      | false, true => (q + 1, p)
      | false, false => shortest f v lo hi d closed (p - 1)
      end
  end.

Fixpoint strip_zeros (fuel : nat) (q p : Z) : Z * Z :=
  match fuel with
  | O => (q, p)
  | S f => if (q mod 10 =? 0) && negb (q =? 0) then strip_zeros f (q / 10) (p + 1) else (q, p)
  end.

(** Digits and decimal point position of a positive binary64 number:
    the value is 0.d1d2...dn * 10^decpt. *)
Definition digits (m : positive) (e : Z) : bytes * Z :=
  let '(m', e') := normalize m e in
  let low_half := (m' =? 2 ^ 52) && (-1074 <? e') in
  let sc := Z.max 0 (e' - 2) in            (* value = 4 m' 2^sc / 2^(sc - (e'-2)) *)
  let d := 2 ^ (sc - (e' - 2)) in
  let v := 4 * m' * 2 ^ sc in
  let hi := v + 2 * 2 ^ sc in
  let lo := v - (if low_half then 1 else 2) * 2 ^ sc in
  let k := log10_floor v d in
  let '(q, p) := shortest 17 v lo hi d (Z.even m') k in
  let '(q, p) := strip_zeros 20 q p in
  let ds := Dec.int_str q in
  (ds, p + Z.of_nat (length ds)).

Definition zeros (n : Z) : bytes := repeat x30 (Z.to_nat n).

Definition exponent_bytes (x : Z) : bytes :=
  let ds := Dec.int_str (Z.abs x) in
  (if x <? 0 then x2d else x2b)
    :: (if (length ds <? 2)%nat then x30 :: ds else ds).

(** The layout of [repr]: exponent notation when the decimal point falls
    more than 16 places right of, or 4 or more places left of, the
    first digit; a fraction part always. *)
Definition layout (ds : bytes) (decpt : Z) : bytes :=
  let n := Z.of_nat (length ds) in
  if (decpt <=? -4) || (16 <? decpt) then
    match ds with
    | [] => []
    | d1 :: rest =>
        (d1 :: match rest with [] => [] | _ => x2e :: rest end)
          ++ x65 :: exponent_bytes (decpt - 1)
    end
  else if decpt <=? 0 then
    x30 :: x2e :: zeros (- decpt) ++ ds
  else if n <=? decpt then
    ds ++ zeros (decpt - n) ++ [x2e; x30]
  else
    firstn (Z.to_nat decpt) ds ++ x2e :: skipn (Z.to_nat decpt) ds.

Definition sign_bytes (neg : bool) : bytes := if neg then [x2d] else [].

(** [str(x)] for a Python float, as ASCII bytes. *)
Definition float_str (x : pyfloat) : bytes :=
  match x with
  | FNan => [x6e; x61; x6e]
  | FInf neg => sign_bytes neg ++ [x69; x6e; x66]
  | FZero neg => sign_bytes neg ++ [x30; x2e; x30]
  | FNum neg m e =>
      let '(ds, decpt) := digits m e in
      sign_bytes neg ++ layout ds decpt
  end.

End FloatRepr.

(** [3.14] as a binary64 number. *)
Definition f3_14 : pyfloat := FNum false 7070651414971679 (-51).

(** ** Python values *)

(** Runtime types.  [TSub cls base] is a user-defined class [cls] derived
    from [base]; [bool] is the builtin subclass of [int]. *)
Inductive pytype :=
| TNoneType | TBool | TInt | TFloat | TBytes | TByteArray | TStr
| TList | TTuple | TType
| TSub (cls : string) (base : pytype).

Fixpoint pytype_eqb (x y : pytype) : bool :=
  match x, y with
  | TNoneType, TNoneType | TBool, TBool | TInt, TInt | TFloat, TFloat
  | TBytes, TBytes | TByteArray, TByteArray | TStr, TStr
  | TList, TList | TTuple, TTuple | TType, TType => true
  | TSub c x', TSub d y' => String.eqb c d && pytype_eqb x' y'
  | _, _ => false
  end.

(** [issubclass(x, y)]. *)
Fixpoint issubclass (x y : pytype) : bool :=
  pytype_eqb x y ||
  match x with
  | TBool => pytype_eqb TInt y
  | TSub _ base => issubclass base y
  | _ => false
  end.

Definition strict_subclass (x y : pytype) : bool :=
  issubclass x y && negb (pytype_eqb x y).

(** Values.  [PSub cls v] is an instance of a class [cls] that derives from
    the type of [v] and overrides nothing: it carries the value [v] and
    behaves as [v] does, except for its type.  [PType ty] is a class object. *)
#[warnings="-register-all"]
Inductive pyval :=
| PNone
| PBool (v : bool)
| PInt (z : Z)
| PFloat (x : pyfloat)
| PBytes (bs : bytes)
| PByteArray (bs : bytes)
| PStr (s : text)
| PList (l : list pyval)
| PTuple (l : list pyval)
| PType (ty : pytype)
| PSub (cls : string) (v : pyval).

(** [type(v)]. *)
Fixpoint type_of (v : pyval) : pytype :=
  match v with
  | PNone => TNoneType
  | PBool _ => TBool
  | PInt _ => TInt
  | PFloat _ => TFloat
  | PBytes _ => TBytes
  | PByteArray _ => TByteArray
  | PStr _ => TStr
  | PList _ => TList
  | PTuple _ => TTuple
  | PType _ => TType
  | PSub cls v => TSub cls (type_of v)
  end.

Definition isinstance (v : pyval) (ty : pytype) : bool :=
  issubclass (type_of v) ty.

(** The value an instance of a subclass carries. *)
Fixpoint base (v : pyval) : pyval :=
  match v with
  | PSub _ v' => base v'
  | _ => v
  end.

(** Induction on values through the lists they nest. *)
Section PyvalInd.
Variable P : pyval -> Prop.
Hypothesis HNone : P PNone.
Hypothesis HBool : forall v, P (PBool v).
Hypothesis HInt : forall z, P (PInt z).
Hypothesis HFloat : forall x, P (PFloat x).
Hypothesis HBytes : forall bs, P (PBytes bs).
Hypothesis HByteArray : forall bs, P (PByteArray bs).
Hypothesis HStr : forall s, P (PStr s).
Hypothesis HList : forall l, Forall P l -> P (PList l).
Hypothesis HTuple : forall l, Forall P l -> P (PTuple l).
Hypothesis HType : forall ty, P (PType ty).
Hypothesis HSub : forall cls v, P v -> P (PSub cls v).

Fixpoint pyval_nested_ind (v : pyval) : P v :=
  match v with
  | PNone => HNone
  | PBool v => HBool v
  | PInt z => HInt z
  | PFloat x => HFloat x
  | PBytes bs => HBytes bs
  | PByteArray bs => HByteArray bs
  | PStr s => HStr s
  | PList l =>
      HList l ((fix go (l : list pyval) : Forall P l :=
                  match l with
                  | [] => Forall_nil P
                  | x :: l' => Forall_cons x (pyval_nested_ind x) (go l')
                  end) l)
  | PTuple l =>
      HTuple l ((fix go (l : list pyval) : Forall P l :=
                   match l with
                   | [] => Forall_nil P
                   | x :: l' => Forall_cons x (pyval_nested_ind x) (go l')
                   end) l)
  | PType ty => HType ty
  | PSub cls v => HSub cls v (pyval_nested_ind v)
  end.
End PyvalInd.

(** ** Exceptions and results *)

Inductive exn :=
| TypeError_argument (arg : pyval)
    (* TypeError("Argument {!r} expected to be of bytes, str, int or float type") *)
| TypeError_unhashable (ty : pytype)
| TypeError_not_iterable (ty : pytype)
| TypeError_no_len (ty : pytype)
| TypeError_not_bytes_like (ty : pytype)
| Unmodelled (what : string)
| AttributeError (v : pyval) (attr : string)
| KeyError (key : pyval)
| IndexError
| UnicodeEncodeError (c : codepoint)
| UnicodeDecodeError (bs : bytes)
| LookupError (encoding : string)
| AssertionError (msg : string)
| InvalidStateError
| CancelledError
| StopAsyncIteration.

Definition result (A : Type) : Type := exn + A.
Definition Ok {A} (a : A) : result A := inr a.
Definition Err {A} (e : exn) : result A := inl e.

Definition rbind {A B} (r : result A) (k : A -> result B) : result B :=
  match r with
  | inl e => inl e
  | inr a => k a
  end.

Declare Scope result_scope.
Delimit Scope result_scope with result.
Notation "x <- r ;; k" := (rbind r (fun x => k))
  (at level 61, r at next level, right associativity) : result_scope.

(** [[f(x) for x in l]], stopping at the first exception. *)
Definition rmap {A B} (f : A -> result B) : list A -> result (list B) :=
  fix go (l : list A) : result (list B) :=
    match l with
    | [] => Ok []
    | a :: l' =>
        match f a with
        | inl e => inl e
        | inr y =>
            match go l' with
            | inl e => inl e
            | inr r => inr (y :: r)
            end
        end
    end.

(** ** Builtin operations on values

    Object identity is not represented: [==] decides every comparison.  The
    two differ only for a NaN float met again inside a container. *)

Definition float_eqb (x y : pyfloat) : bool :=
  match x, y with
  | FZero _, FZero _ => true
  | FInf n1, FInf n2 => Bool.eqb n1 n2
  | FNum n1 m1 e1, FNum n2 m2 e2 =>
      let e := Z.min e1 e2 in
      Bool.eqb n1 n2 && (Z.pos m1 * 2 ^ (e1 - e) =? Z.pos m2 * 2 ^ (e2 - e))
  | _, _ => false
  end.

Definition float_int_eqb (x : pyfloat) (z : Z) : bool :=
  match x with
  | FZero _ => z =? 0
  | FNum neg m e =>
      let s := if neg then -1 else 1 in
      if 0 <=? e then z =? s * Z.pos m * 2 ^ e
      else z * 2 ^ (- e) =? s * Z.pos m
  | _ => false
  end.

(** [x == y] for two values that are instances of no user-defined class. *)
Definition scalar_eq (x y : pyval) : bool :=
  match x, y with
  | PNone, PNone => true
  | PBool u, PBool v => Bool.eqb u v
  | PBool u, PInt z | PInt z, PBool u => Z.b2z u =? z
  | PBool u, PFloat f | PFloat f, PBool u => float_int_eqb f (Z.b2z u)
  | PInt z, PInt z' => z =? z'
  | PInt z, PFloat f | PFloat f, PInt z => float_int_eqb f z
  | PFloat f, PFloat g => float_eqb f g
  | (PBytes x | PByteArray x), (PBytes y | PByteArray y) => bytes_eqb x y
  | PStr s, PStr s' => text_eqb s s'
  | PType u, PType v => pytype_eqb u v
  | _, _ => false
  end.

(** [x == y]. *)
Fixpoint py_eq (x y : pyval) {struct x} : bool :=
  match x with
  | PSub _ x' => py_eq x' y
  | PList l =>
      match base y with
      | PList l' =>
          (fix go (l l' : list pyval) : bool :=
             match l, l' with
             | [], [] => true
             | a :: l, c :: l' => py_eq a c && go l l'
             | _, _ => false
             end) l l'
      | _ => false
      end
  | PTuple l =>
      match base y with
      | PTuple l' =>
          (fix go (l l' : list pyval) : bool :=
             match l, l' with
             | [], [] => true
             | a :: l, c :: l' => py_eq a c && go l l'
             | _, _ => false
             end) l l'
      | _ => false
      end
  | _ => scalar_eq x (base y)
  end.

(** [x in seq] for a tuple or list [seq]. *)
Definition py_in (x : pyval) (seq : list pyval) : bool :=
  existsb (fun item => py_eq item x) seq.

(** [bool(v)]. *)
Fixpoint truthy (v : pyval) : bool :=
  match v with
  | PNone => false
  | PBool u => u
  | PInt z => negb (z =? 0)
  | PFloat (FZero _) => false
  | PFloat _ => true
  | PBytes bs | PByteArray bs => match bs with [] => false | _ => true end
  | PStr s => match s with [] => false | _ => true end
  | PList l | PTuple l => match l with [] => false | _ => true end
  | PType _ => true
  | PSub _ v' => truthy v'
  end.

(** [hash(v)] succeeds. *)
Fixpoint hashable (v : pyval) : bool :=
  match v with
  | PByteArray _ | PList _ => false
  | PTuple l => forallb hashable l
  | PSub _ v' => hashable v'
  | _ => true
  end.

(** [len(v)]. *)
Definition py_len (v : pyval) : result Z :=
  match base v with
  | PBytes bs | PByteArray bs => Ok (Z.of_nat (length bs))
  | PStr s => Ok (Z.of_nat (length s))
  | PList l | PTuple l => Ok (Z.of_nat (length l))
  | _ => Err (TypeError_no_len (type_of v))
  end.

(** [list(iter(v))]: the items [v] yields when iterated. *)
Definition py_iter (v : pyval) : result (list pyval) :=
  match base v with
  | PBytes bs | PByteArray bs => Ok (map (fun c => PInt (Z.of_N (Byte.to_N c))) bs)
  | PStr s => Ok (map (fun c => PStr [c]) s)
  | PList l | PTuple l => Ok l
  | _ => Err (TypeError_not_iterable (type_of v))
  end.

(** The content of a bytes-like object, as [bytes.join] reads it. *)
Definition buffer (v : pyval) : result bytes :=
  match base v with
  | PBytes bs | PByteArray bs => Ok bs
  | _ => Err (TypeError_not_bytes_like (type_of v))
  end.

(** [str(v)] for numbers and text.  The [str] of the other kinds is their
    [repr]; no path of this module asks for it (a converter that calls [str]
    is only reached by an [int] or a [float]), and the model leaves it out. *)
Definition str_ (v : pyval) : result pyval :=
  match base v with
  | PInt z => Ok (PStr (map Byte.to_N (Dec.int_str z)))
  | PFloat x => Ok (PStr (map Byte.to_N (FloatRepr.float_str x)))
  | PStr s => Ok (PStr s)
  | _ => Err (Unmodelled "str")
  end.

(** [v.encode('utf-8')]. *)
Definition encode_utf8 (v : pyval) : result pyval :=
  match base v with
  | PStr s =>
      match Utf8.encode s with
      | inl c => Err (UnicodeEncodeError c)
      | inr bs => Ok (PBytes bs)
      end
  | _ => Err (AttributeError v "encode")
  end.

(** ** The converter table *)

Definition converter := pyval -> result pyval.

(** [_converters]: from the exact runtime type to its encoder. *)
Definition _converters : list (pytype * converter) :=
  [ (TBytes,     fun val => Ok val);
    (TByteArray, fun val => Ok val);
    (TStr,       fun val => encode_utf8 val);
    (TInt,       fun val => (s <- str_ val ;; encode_utf8 s)%result);
    (TFloat,     fun val => (s <- str_ val ;; encode_utf8 s)%result) ].

(** [_converters[ty]]: a missing key raises [KeyError(ty)]. *)
Definition converters_getitem (ty : pytype) : result converter :=
  match find (fun kv => pytype_eqb (fst kv) ty) _converters with
  | Some kv => Ok (snd kv)
  | None => Err (KeyError (PType ty))
  end.

(** ** The bounded cache of [functools.lru_cache]

    [lru_cache] is the standard library's: entries in order of use, the most
    recent first; a hit moves its entry to the front; a miss calls the
    function, stores the result and, at capacity, drops the entry used
    longest ago.  A call that raises stores nothing. *)

Module Lru.

Definition cache := list (Z * pyval).

Fixpoint lookup (key : Z) (c : cache) : option pyval :=
  match c with
  | [] => None
  | (k, v) :: c' => if k =? key then Some v else lookup key c'
  end.

Fixpoint remove (key : Z) (c : cache) : cache :=
  match c with
  | [] => []
  | (k, v) :: c' => if k =? key then c' else (k, v) :: remove key c'
  end.

Definition call (maxsize : nat) (f : Z -> result pyval) (key : Z) (c : cache)
  : result pyval * cache :=
  match lookup key c with
  | Some v => (Ok v, (key, v) :: remove key c)
  | None =>
      match f key with
      | inl e => (inl e, c)
      | inr v =>
          (Ok v,
           (key, v) :: (if (maxsize <=? length c)%nat then removelast c else c))
      end
  end.

End Lru.

(** ** Computations that use the cache and may raise *)

Definition M (A : Type) : Type := Lru.cache -> result A * Lru.cache.

Definition ret {A} (a : A) : M A := fun c => (Ok a, c).
Definition raise {A} (e : exn) : M A := fun c => (Err e, c).
Definition lift {A} (r : result A) : M A := fun c => (r, c).

Definition bind {A B} (m : M A) (k : A -> M B) : M B :=
  fun c =>
    match m c with
    | (inl e, c') => (inl e, c')
    | (inr a, c') => k a c'
    end.

(** [try: m except: h]: every exception of [m] is handled by [h]; what [m]
    did to the cache stays, as after any exception: the cache is the
    process's, and raising does not undo a call of [_bytes_len]. *)
Definition try_except {A} (m : M A) (h : exn -> M A) : M A :=
  fun c =>
    match m c with
    | (inl e, c') => h e c'
    | (inr a, c') => (inr a, c')
    end.

Declare Scope cmd_scope.
Delimit Scope cmd_scope with cmd.
Notation "x <-- m ;; k" := (bind m (fun x => k))
  (at level 61, m at next level, right associativity) : cmd_scope.

(** ** [_bytes_len] and [encode_command] *)

Definition maxsize : nat := 1024.

(** The body of [_bytes_len]: [str(nsized).encode('utf-8')]. *)
Definition _bytes_len_body (nsized : Z) : result pyval :=
  (s <- str_ (PInt nsized) ;; encode_utf8 s)%result.

(** [_bytes_len], behind [@lru_cache(maxsize=1024)]. *)
Definition _bytes_len (nsized : Z) : M pyval :=
  Lru.call maxsize _bytes_len_body nsized.

(** [b''.join(parts)]. *)
Definition bytes_join (parts : list pyval) : result bytes :=
  (bufs <- rmap buffer parts ;; Ok (concat bufs))%result.

(** The body of the [try] for one argument: the parts with the bulk string
    of [arg] appended. *)
Definition encode_arg (parts : list pyval) (arg : pyval) : M (list pyval) :=
  (conv <-- lift (converters_getitem (type_of arg)) ;;
   barg <-- lift (conv arg) ;;
   n <-- lift (py_len barg) ;;
   ln <-- _bytes_len n ;;
   ret (parts ++ [PBytes (b "$"); ln; PBytes CRLF; barg; PBytes CRLF]))%cmd.

Fixpoint encode_loop (parts : list pyval) (args : list pyval) : M (list pyval) :=
  match args with
  | [] => ret parts
  | arg :: args' =>
      (parts' <-- try_except (encode_arg parts arg)
                    (fun _ => raise (TypeError_argument arg)) ;;
       encode_loop parts' args')%cmd
  end.

(** [encode_command]: the arguments of the call as a list. *)
Definition encode_command (args : list pyval) : M pyval :=
  (n <-- _bytes_len (Z.of_nat (length args)) ;;
   parts <-- encode_loop [PBytes (b "*"); n; PBytes CRLF] args ;;
   joined <-- lift (bytes_join parts) ;;
   ret (PByteArray joined))%cmd.

(** The command on a cold cache. *)
Definition encode_command0 (args : list pyval) : result pyval :=
  fst (encode_command args []).

(** ** [decode] *)

(** A text encoding, as [bytes.decode] uses it: the text of a blob, or the
    exception the codec raises on it. *)
Definition encoding := bytes -> result text.

Definition ascii_codec : encoding :=
  fun bs =>
    if forallb (fun c => (Byte.to_N c <? 128)%N) bs then Ok (map Byte.to_N bs)
    else Err (UnicodeDecodeError bs).

Definition latin_1 : encoding := fun bs => Ok (map Byte.to_N bs).

(** [decode(obj, encoding)].  An instance of a subclass of [bytes] or of
    [list] passes the [isinstance] test of its base and is decoded as the
    value it carries; [decode_unfold] states the equation in the source's
    own shape. *)
Fixpoint decode (enc : encoding) (obj : pyval) : result pyval :=
  match obj with
  | PBytes bs => (s <- enc bs ;; Ok (PStr s))%result
  | PList l => (l' <- rmap (decode enc) l ;; Ok (PList l'))%result
  | PSub _ v =>
      if isinstance v TBytes || isinstance v TList then decode enc v else Ok obj
  | _ => Ok obj
  end.

(** ** Pending results: [asyncio.Future] *)

Inductive future :=
| Pending
| Cancelled
| Finished (outcome : result pyval).

Definition done (fut : future) : bool :=
  match fut with Pending => false | _ => true end.

Definition cancelled (fut : future) : bool :=
  match fut with Cancelled => true | _ => false end.

Definition set_result (fut : future) (r : pyval) : result future :=
  match fut with
  | Pending => Ok (Finished (Ok r))
  | _ => Err InvalidStateError
  end.

Definition set_exception (fut : future) (e : exn) : result future :=
  match fut with
  | Pending => Ok (Finished (Err e))
  | _ => Err InvalidStateError
  end.

(** [yield from fut]: nothing while the future is pending. *)
Definition await (fut : future) : option (result pyval) :=
  match fut with
  | Pending => None
  | Cancelled => Some (Err CancelledError)
  | Finished r => Some r
  end.

(** What a settlement helper did: the future afterwards, whether it wrote
    to the debug log, and the exception it raised, if any. *)
Record settled := {
  fut_after : future;
  logged : bool;
  raised : option exn
}.

Definition wrong_state : string := "waiting future is in wrong state".

(** [_set_result(fut, result)].  The [assert] is executed, as it is unless
    the interpreter is asked to drop assertions. *)
Definition _set_result (fut : future) (r : pyval) : settled :=
  if done fut then
    if cancelled fut then {| fut_after := fut; logged := true; raised := None |}
    else {| fut_after := fut; logged := true;
            raised := Some (AssertionError wrong_state) |}
  else
    match set_result fut r with
    | inr fut' => {| fut_after := fut'; logged := false; raised := None |}
    | inl e => {| fut_after := fut; logged := false; raised := Some e |}
    end.

(** [_set_exception(fut, exception)]. *)
Definition _set_exception (fut : future) (e : exn) : settled :=
  if done fut then
    if cancelled fut then {| fut_after := fut; logged := true; raised := None |}
    else {| fut_after := fut; logged := true;
            raised := Some (AssertionError wrong_state) |}
  else
    match set_exception fut e with
    | inr fut' => {| fut_after := fut'; logged := false; raised := None |}
    | inl e' => {| fut_after := fut; logged := false; raised := Some e' |}
    end.

(** ** The adapters *)

Definition QUEUED : list pyval := [PBytes (b "QUEUED"); PStr (t "QUEUED")].
Definition OK : list pyval := [PBytes (b "OK"); PStr (t "OK")].

(** [wait_ok(fut)], once [fut] is settled. *)
Definition wait_ok (fut : future) : option (result pyval) :=
  option_map
    (fun r => (res <- r ;;
               if py_in res QUEUED then Ok res
               else Ok (PBool (py_in res OK)))%result)
    (await fut).

(** A [dict]: its items in insertion order, the keys pairwise unequal. *)
Definition pydict := list (pyval * pyval).

Fixpoint dict_lookup (d : pydict) (key : pyval) : option pyval :=
  match d with
  | [] => None
  | (k, v) :: d' => if py_eq k key then Some v else dict_lookup d' key
  end.

Fixpoint dict_store (d : pydict) (key value : pyval) : pydict :=
  match d with
  | [] => [(key, value)]
  | (k, v) :: d' =>
      if py_eq k key then (k, value) :: d' else (k, v) :: dict_store d' key value
  end.

Definition unhashable {A} (key : pyval) : result A :=
  Err (TypeError_unhashable (type_of key)).

(** [dict.__getitem__(d, key)]. *)
Definition dict_getitem (d : pydict) (key : pyval) : result pyval :=
  if hashable key then
    match dict_lookup d key with
    | Some v => Ok v
    | None => Err (KeyError key)
    end
  else unhashable key.

(** [dict.__contains__(d, key)]. *)
Definition dict_contains (d : pydict) (key : pyval) : result bool :=
  if hashable key then
    Ok (match dict_lookup d key with Some _ => true | None => false end)
  else unhashable key.

(** [d[key] = value]. *)
Definition dict_setitem (d : pydict) (key value : pyval) : result pydict :=
  if hashable key then Ok (dict_store d key value) else unhashable key.

(** [dict(pairs)]. *)
Definition dict_of (pairs : list (pyval * pyval)) : result pydict :=
  fold_left
    (fun acc kv => (d <- acc ;; dict_setitem d (fst kv) (snd kv))%result)
    pairs (Ok []).

(** [zip(it, it)] over one iterator [it] of the items [l]: each round takes
    two items; the round that finds no second item ends the zip. *)
Fixpoint zip_same_iter (l : list pyval) : list (pyval * pyval) :=
  match l with
  | k :: v :: rest => (k, v) :: zip_same_iter rest
  | _ => []
  end.

(** What [wait_make_dict] returns: the settled value itself, or a dict. *)
Inductive made :=
| Unchanged (res : pyval)
| Mapping (d : pydict).

(** [wait_make_dict(fut)], once [fut] is settled. *)
Definition wait_make_dict (fut : future) : option (result made) :=
  option_map
    (fun r => (res <- r ;;
               if py_in res QUEUED then Ok (Unchanged res)
               else
                 it <- py_iter res ;;
                 d <- dict_of (zip_same_iter it) ;;
                 Ok (Mapping d))%result)
    (await fut).

(** [wait_convert(fut, type_, **kwargs)], once [fut] is settled; [type_] is
    the conversion with its keyword arguments applied. *)
Definition wait_convert (fut : future) (type_ : pyval -> result pyval)
  : option (result pyval) :=
  option_map
    (fun r => (res <- r ;;
               if py_in res QUEUED then Ok res else type_ res)%result)
    (await fut).

(** [create_future(loop)]: a new future of the loop, with either of the two
    definitions the module chooses between. *)
Definition create_future : future := Pending.

(** ** [coerced_keys_dict] *)

Module coerced_keys_dict.

(** The key both methods look up: [other] itself when it is an instance
    of [bytes], else what the converter of its exact type makes of it. *)
Definition coerce (other : pyval) : result pyval :=
  if negb (isinstance other TBytes) then
    (conv <- converters_getitem (type_of other) ;; conv other)%result
  else Ok other.

Definition __getitem__ (self : pydict) (other : pyval) : result pyval :=
  (other' <- coerce other ;; dict_getitem self other')%result.

Definition __contains__ (self : pydict) (other : pyval) : result bool :=
  (other' <- coerce other ;; dict_contains self other')%result.

End coerced_keys_dict.

(** ** The scan iterators *)

(** The slices [ret[::2]] and [ret[1::2]]. *)
Fixpoint evens (l : list pyval) : list pyval :=
  match l with
  | [] => []
  | x :: l' => x :: odds l'
  end
with odds (l : list pyval) : list pyval :=
  match l with
  | [] => []
  | _ :: l' => evens l'
  end.

(** [list(zip(xs, ys))]: tuples, as many as the shorter list has items. *)
Definition zip_tuples (xs ys : list pyval) : list pyval :=
  map (fun kv => PTuple [fst kv; snd kv]) (combine xs ys).

Section ScanIter.

(** The scan primitive: a coroutine with a state [St] of its own (the
    server's, the connection's).  Called with a cursor it raises, or
    returns the next cursor and a page of items.  The page is the list as
    it is when returned: the iterator calls the primitive only with its
    buffer empty, so by then it has emptied every list it was given, and a
    primitive that keeps such a list is one whose state says so. *)
Variable St : Type.
Definition scan_fn := St -> pyval -> St * result (pyval * list pyval).
Variable scan : scan_fn.

(** The slots of [_BaseScanIter] ([_scan] is the section's [scan]). *)
Record iter := { _cur : pyval; _ret : list pyval }.

(** [__init__]. *)
Definition init : iter := {| _cur := PBytes (b "0"); _ret := [] |}.

Definition nonempty (l : list pyval) : bool :=
  match l with [] => false | _ => true end.

(** What a call leaves behind: the primitive's state, the iterator, and
    the value returned or the exception raised. *)
Definition step (A : Type) : Type := St * iter * result A.

(** The [while] loop of [__anext__]; [regroup] is what the variant stores
    of a page.  [None]: the loop is still running after [fuel] rounds. *)
Fixpoint fetch (regroup : list pyval -> list pyval)
    (fuel : nat) (s : St) (it : iter) : option (step unit) :=
  if negb (nonempty (_ret it)) && truthy (_cur it) then
    match fuel with
    | O => None
    | S fuel' =>
        match scan s (_cur it) with
        | (s', inl e) => Some (s', it, Err e)
        | (s', inr (cur, ret)) =>
            fetch regroup fuel' s' {| _cur := cur; _ret := regroup ret |}
        end
    end
  else Some (s, it, Ok tt).

(** The lines after the loop. *)
Definition pop_or_stop (s : St) (it : iter) : step pyval :=
  if negb (truthy (_cur it)) && negb (nonempty (_ret it)) then
    (s, it, Err StopAsyncIteration)
  else
    match _ret it with
    | [] => (s, it, Err IndexError)
    | x :: rest => (s, {| _cur := _cur it; _ret := rest |}, Ok x)
    end.

Definition anext_with (regroup : list pyval -> list pyval)
    (fuel : nat) (s : St) (it : iter) : option (step pyval) :=
  match fetch regroup fuel s it with
  | None => None
  | Some (s', it', inl e) => Some (s', it', Err e)
  | Some (s', it', inr _) => Some (pop_or_stop s' it')
  end.

(** [_ScanIter.__anext__]. *)
Definition ScanIter_anext := anext_with (fun ret => ret).

(** [_ScanIterPairs.__anext__]. *)
Definition ScanIterPairs_anext :=
  anext_with (fun ret => zip_tuples (evens ret) (odds ret)).

(** [async for x in it]: the items yielded over at most [n] calls of
    [__anext__], and how the iteration ended: [Some (Ok tt)] at
    [StopAsyncIteration], [Some (Err e)] at another exception, [None] when
    it is still going (after [n] items, or inside a fetch loop). *)
Fixpoint drain (anext : nat -> St -> iter -> option (step pyval))
    (fuel n : nat) (s : St) (it : iter) : list pyval * option (result unit) :=
  match n with
  | O => ([], None)
  | S n' =>
      match anext fuel s it with
      | None => ([], None)
      | Some (_, _, inl StopAsyncIteration) => ([], Some (Ok tt))
      | Some (_, _, inl e) => ([], Some (Err e))
      | Some (s', it', inr x) =>
          let '(xs, r) := drain anext fuel n' s' it' in (x :: xs, r)
      end
  end.

End ScanIter.

(** ** The wire grammar and a reference parser of it *)

(** One bulk string: [$<len>\r\n<bytes>\r\n]. *)
Definition bulk (x : bytes) : bytes :=
  b "$" ++ Dec.int_str (Z.of_nat (length x)) ++ CRLF ++ x ++ CRLF.

(** A command: [*<N>\r\n] and then its [N] bulk strings. *)
Definition wire (xs : list bytes) : bytes :=
  b "*" ++ Dec.int_str (Z.of_nat (length xs)) ++ CRLF ++ concat (map bulk xs).

Module Resp.

Definition digit_of (c : byte) : option (Decimal.uint -> Decimal.uint) :=
  match c with
  | x30 => Some Decimal.D0 | x31 => Some Decimal.D1 | x32 => Some Decimal.D2
  | x33 => Some Decimal.D3 | x34 => Some Decimal.D4 | x35 => Some Decimal.D5
  | x36 => Some Decimal.D6 | x37 => Some Decimal.D7 | x38 => Some Decimal.D8
  | x39 => Some Decimal.D9
  | _ => None
  end.

(** The longest prefix of decimal digits, and what follows it. *)
Fixpoint read_uint (bs : bytes) : Decimal.uint * bytes :=
  match bs with
  | [] => (Decimal.Nil, [])
  | c :: bs' =>
      match digit_of c with
      | Some d => let '(u, r) := read_uint bs' in (d u, r)
      | None => (Decimal.Nil, bs)
      end
  end.

(** A length field: at least one digit, then CR LF. *)
Definition read_len (bs : bytes) : option (nat * bytes) :=
  match read_uint bs with
  | (Decimal.Nil, _) => None
  | (u, x0d :: x0a :: r) => Some (N.to_nat (N.of_uint u), r)
  | _ => None
  end.

Definition read_bulk (bs : bytes) : option (bytes * bytes) :=
  match bs with
  | x24 :: bs1 =>
      match read_len bs1 with
      | Some (n, r) =>
          if (n <=? length r)%nat then
            match skipn n r with
            | x0d :: x0a :: r' => Some (firstn n r, r')
            | _ => None
            end
          else None
      | None => None
      end
  | _ => None
  end.

Fixpoint read_bulks (n : nat) (bs : bytes) : option (list bytes * bytes) :=
  match n with
  | O => Some ([], bs)
  | S n' =>
      match read_bulk bs with
      | Some (x, r) =>
          match read_bulks n' r with
          | Some (xs, r') => Some (x :: xs, r')
          | None => None
          end
      | None => None
      end
  end.

(** The arguments of one command that fills the buffer exactly. *)
Definition parse (bs : bytes) : option (list bytes) :=
  match bs with
  | x2a :: bs1 =>
      match read_len bs1 with
      | Some (n, r) =>
          match read_bulks n r with
          | Some (xs, []) => Some xs
          | _ => None
          end
      | None => None
      end
  | _ => None
  end.

End Resp.

(** ** What the specification calls the canonical encoding *)

(** Blobs unchanged, text in UTF-8, integers and floats as their decimal
    text; nothing for a text UTF-8 refuses and for every other kind. *)
Definition canonical (v : pyval) : option bytes :=
  match v with
  | PBytes bs | PByteArray bs => Some bs
  | PStr s => match Utf8.encode s with inr bs => Some bs | inl _ => None end
  | PInt z => Some (Dec.int_str z)
  | PFloat x => Some (FloatRepr.float_str x)
  | _ => None
  end.

(** The four kinds of argument: the types the converter table has. *)
Definition supported_type (ty : pytype) : bool :=
  match ty with
  | TBytes | TByteArray | TStr | TInt | TFloat => true
  | _ => false
  end.

Definition supported (v : pyval) : bool := supported_type (type_of v).

(** A text argument that UTF-8 encodes: one without lone surrogates. *)
Definition utf8_ok (v : pyval) : Prop :=
  match v with
  | PStr s => Utf8.encodable s
  | _ => True
  end.

(** ** Histories of the process-wide cache *)

Inductive call :=
| Call_bytes_len (nsized : Z)
| Call_encode_command (args : list pyval).

Definition run_call (c : Lru.cache) (k : call) : Lru.cache :=
  match k with
  | Call_bytes_len n => snd (_bytes_len n c)
  | Call_encode_command args => snd (encode_command args c)
  end.

(** The cache after the calls of [history], from a fresh process. *)
Definition cache_after (history : list call) : Lru.cache :=
  fold_left run_call history [].

(** * Definitions for the specification

    What the statements below are written with: the notions of the
    specification, invariants of the cache, and the primitives the scan
    iterators are run against. *)

Definition Ascii (bs : bytes) : Prop :=
  Forall (fun c => (Byte.to_N c < 128)%N) bs.

(** [_converters[type(v)](v)]. *)
Definition convert (v : pyval) : result pyval :=
  (conv <- converters_getitem (type_of v) ;; conv v)%result.

(** [m] keeps the invariant [I] of the cache, whatever it returns. *)
Definition preserves (I : Lru.cache -> Prop) {A} (m : M A) : Prop :=
  forall c, I c -> I (snd (m c)).

(** Every entry of the cache holds the decimal text of its key. *)
Definition coherent (c : Lru.cache) : Prop :=
  Forall (fun kv => snd kv = PBytes (Dec.int_str (fst kv))) c.

(** The cache holds no more entries than its capacity. *)
Definition bounded (c : Lru.cache) : Prop := (length c <= maxsize)%nat.

(** The five parts [encode_command] appends for an argument encoded as [bs]. *)
Definition bulk_parts (bs : bytes) : list bytes :=
  [b "$"; Dec.int_str (Z.of_nat (length bs)); CRLF; bs; CRLF].

Definition encodes_as (arg : pyval) (bs : bytes) : Prop :=
  canonical arg = Some bs.

Definition set_key_42_3_14 : list pyval :=
  [PStr (t "SET"); PStr (t "key"); PInt 42; PFloat f3_14].

Definition set_key_42_3_14_wire : bytes :=
  b "*4" ++ CRLF ++ b "$3" ++ CRLF ++ b "SET" ++ CRLF
    ++ b "$3" ++ CRLF ++ b "key" ++ CRLF
    ++ b "$2" ++ CRLF ++ b "42" ++ CRLF
    ++ b "$4" ++ CRLF ++ b "3.14" ++ CRLF.

(** A lone surrogate is a code point of a [str] and has no UTF-8 bytes. *)
Definition lone_surrogate : pyval := PStr [55296%N].

(** An instance of a class derived from [bytes]. *)
Definition bytes_subclass_key : pyval := PSub "Key" (PBytes (b "x")).

(** The keys a lookup coerces to a blob: text, integers and floats; a blob
    of type [bytes] is looked up as it is. *)
Definition coerced_kind (v : pyval) : bool :=
  match v with
  | PBytes _ | PStr _ | PInt _ | PFloat _ => true
  | _ => false
  end.

(** The flat sequence [k1, v1, k2, v2, ...] of a list of pairs. *)
Definition flatten (pairs : list (pyval * pyval)) : list pyval :=
  flat_map (fun kv => [fst kv; snd kv]) pairs.

Definition tuple_of (kv : pyval * pyval) : pyval := PTuple [fst kv; snd kv].

(** The items of a dict whose keys are blobs. *)
Definition blob_items (kvs : list (bytes * pyval)) : pydict :=
  map (fun kv => (PBytes (fst kv), snd kv)) kvs.

Definition page := (pyval * list pyval)%type.

(** A primitive that answers each call with the next page of a list
    ([pages.pop(0)]), whatever cursor it is given. *)
Definition scripted : scan_fn (list page) :=
  fun s _ =>
    match s with
    | [] => ([], Err IndexError)
    | p :: s' => (s', Ok p)
    end.

(** The script runs the iterator to its end from the cursor [cur]: every
    cursor before the last is truthy, the last is falsy. *)
Fixpoint driven (cur : pyval) (script : list page) : Prop :=
  match script with
  | [] => truthy cur = false
  | (cur', _) :: script' => truthy cur = true /\ driven cur' script'
  end.

(** The items still to come: the buffer, then the pages of the script as
    the variant stores them. *)
Definition to_come (regroup : list pyval -> list pyval)
    (buf : list pyval) (script : list page) : list pyval :=
  buf ++ concat (map (fun p => regroup (snd p)) script).

(** [__anext__] against a scripted primitive. *)
Definition scripted_anext (regroup : list pyval -> list pyval) :=
  anext_with (list page) scripted regroup.

(** A primitive whose cursor is the text ["0"] from the first call on, with
    empty pages. *)
Definition always_zero : scan_fn unit :=
  fun s _ => (s, Ok (PStr (t "0"), [])).

(** A primitive that answers as a server does, with text cursors: the scan
    starts at ["0"] (or [b"0"]) and is over when the cursor ["0"] comes back. *)
Definition server_like : scan_fn unit :=
  fun s cur =>
    if py_in cur [PBytes (b "0"); PStr (t "0")]
    then (s, Ok (PStr (t "5"), [PInt 1; PInt 2]))
    else (s, Ok (PStr (t "0"), [PInt 3])).

Definition key_a : pyval := PBytes (b "a").
Definition key_b : pyval := PBytes (b "b").

(** The value equals the literal [tok], in its binary or in its text form. *)
Definition is_token (tok : string) (v : pyval) : bool :=
  match base v with
  | PBytes bs | PByteArray bs => bytes_eqb bs (b tok)
  | PStr s => text_eqb s (t tok)
  | _ => false
  end.

(** The blobs [decode] meets in [obj], in order. *)
Fixpoint blobs (obj : pyval) : list bytes :=
  match obj with
  | PBytes bs => [bs]
  | PList l => flat_map blobs l
  | PSub _ v => if isinstance v TBytes || isinstance v TList then blobs v else []
  | _ => []
  end.



(** One command read off the front of a stream, and the rest of the stream. *)
Definition read_command (bs : bytes) : option (list bytes * bytes) :=
  match bs with
  | x2a :: bs1 =>
      match Resp.read_len bs1 with
      | Some (n, r) => Resp.read_bulks n r
      | None => None
      end
  | _ => None
  end.

(** The keys of the cache, the most recently used first. *)
Definition cache_keys (c : Lru.cache) : list Z := map fst c.

Definition distinct_keys (c : Lru.cache) : Prop := NoDup (cache_keys c).

(** The exception of the first blob, in order, that the encoding refuses. *)
Fixpoint first_error (enc : encoding) (bss : list bytes) : option exn :=
  match bss with
  | [] => None
  | bs :: bss' =>
      match enc bs with
      | inl e => Some e
      | inr _ => first_error enc bss'
      end
  end.


(** The value is a blob: an instance of [bytes] or of [bytearray]. *)
Definition bytes_like (v : pyval) : bool :=
  match base v with
  | PBytes _ | PByteArray _ => true
  | _ => false
  end.

Definition hashable_keys (pairs : list (pyval * pyval)) : Prop :=
  Forall (fun kv => hashable (fst kv) = true) pairs.

(** A scripted primitive that also records the cursor of every call. *)
Definition recording : scan_fn (list page * list pyval) :=
  fun st cur =>
    match fst st with
    | [] => (([], snd st ++ [cur]), Err IndexError)
    | p :: s' => ((s', snd st ++ [cur]), Ok p)
    end.

(** The cursors still to be passed to the primitive: the current one, then
    the cursor of every page of the script but the last. *)
Fixpoint calls (cur : pyval) (script : list page) : list pyval :=
  match script with
  | [] => []
  | (cur', _) :: script' => cur :: calls cur' script'
  end.

(** [async for x in it], as [drain], with the state the primitive is left in. *)
Fixpoint run_to_end {St : Type}
    (anext : nat -> St -> iter -> option (step St pyval))
    (fuel n : nat) (s : St) (it : iter)
  : list pyval * option (result unit) * St :=
  match n with
  | O => ([], None, s)
  | S n' =>
      match anext fuel s it with
      | None => ([], None, s)
      | Some (s', _, inl StopAsyncIteration) => ([], Some (Ok tt), s')
      | Some (s', _, inl e) => ([], Some (Err e), s')
      | Some (s', it', inr x) =>
          let '(xs, r, s_end) := run_to_end anext fuel n' s' it' in
          (x :: xs, r, s_end)
      end
  end.

(** A tuple of two items. *)
Definition is_pair (v : pyval) : bool :=
  match v with
  | PTuple [_; _] => true
  | _ => false
  end.

Definition all_pairs (l : list pyval) : Prop :=
  Forall (fun x => is_pair x = true) l.

(** An attempt to settle a future, by either helper. *)
Inductive attempt :=
| Set_result (r : pyval)
| Set_exception (e : exn).

Definition settle (fut : future) (a : attempt) : settled :=
  match a with
  | Set_result r => _set_result fut r
  | Set_exception e => _set_exception fut e
  end.

Definition outcome_of (a : attempt) : result pyval :=
  match a with
  | Set_result r => Ok r
  | Set_exception e => Err e
  end.

(** The attempts one after the other: the future in the end, and what each
    attempt raised. *)
Fixpoint settle_all (fut : future) (attempts : list attempt)
  : future * list (option exn) :=
  match attempts with
  | [] => (fut, [])
  | a :: attempts' =>
      let s := settle fut a in
      let '(fut', rs) := settle_all (fut_after s) attempts' in
      (fut', raised s :: rs)
  end.

(** * Properties *)

(** ** The builtins, on examples *)

Example float_str_examples :
  FloatRepr.float_str f3_14 = b "3.14"
  /\ FloatRepr.float_str (FNum false 1 0) = b "1.0"
  /\ FloatRepr.float_str (FNum true 5 (-1)) = b "-2.5"
  /\ FloatRepr.float_str (FNum false 3602879701896397 (-55)) = b "0.1"
  /\ FloatRepr.float_str (FNum false 10000000000000000 0) = b "1e+16"
  /\ FloatRepr.float_str (FNum false 1 (-1074)) = b "5e-324"
  /\ FloatRepr.float_str (FInf true) = b "-inf".
Proof. vm_compute. repeat split. Qed.

Example utf8_examples :
  Utf8.encode (t "key") = inr (b "key")
  /\ Utf8.encode [233%N] = inr [xc3; xa9]
  /\ Utf8.encode [8364%N] = inr [xe2; x82; xac]
  /\ Utf8.encode [128512%N] = inr [xf0; x9f; x98; x80]
  /\ Utf8.encode [107%N; 56320%N] = inl 56320%N.
Proof. repeat split. Qed.

(** ** ASCII text and its UTF-8 encoding *)

Lemma Ascii_app (x y : bytes) : Ascii x -> Ascii y -> Ascii (x ++ y).
Proof. intros Hx Hy. apply Forall_app. split; assumption. Qed.

Lemma Ascii_cons (c : byte) (x : bytes) :
  (Byte.to_N c < 128)%N -> Ascii x -> Ascii (c :: x).
Proof. intros. constructor; assumption. Qed.

Lemma byte_of_to_N (c : byte) : byte_of_N (Byte.to_N c) = c.
Proof. unfold byte_of_N. rewrite Byte.of_to_N. reflexivity. Qed.

Lemma utf8_encode_ascii (bs : bytes) :
  Ascii bs -> Utf8.encode (map Byte.to_N bs) = inr bs.
Proof.
  induction 1 as [|c bs Hc _ IH]; simpl; [reflexivity|].
  unfold Utf8.encode_char.
  apply N.ltb_lt in Hc. rewrite Hc, IH, byte_of_to_N. reflexivity.
Qed.

Lemma uint_bytes_ascii (u : Decimal.uint) : Ascii (Dec.uint_bytes u).
Proof.
  induction u; simpl; try constructor; try assumption; reflexivity.
Qed.

Lemma int_str_ascii (z : Z) : Ascii (Dec.int_str z).
Proof.
  unfold Dec.int_str. destruct (Z.to_int z).
  - apply uint_bytes_ascii.
  - apply Ascii_cons; [reflexivity | apply uint_bytes_ascii].
Qed.

Lemma zeros_ascii (n : Z) : Ascii (FloatRepr.zeros n).
Proof.
  unfold FloatRepr.zeros. induction (Z.to_nat n); simpl; constructor;
    [reflexivity | assumption].
Qed.

Lemma firstn_ascii (n : nat) (bs : bytes) : Ascii bs -> Ascii (firstn n bs).
Proof.
  unfold Ascii. intros H. revert n.
  induction H as [|c bs Hc H IH]; intros [|n]; simpl; try constructor; auto.
Qed.

Lemma skipn_ascii (n : nat) (bs : bytes) : Ascii bs -> Ascii (skipn n bs).
Proof.
  unfold Ascii. intros H. revert n.
  induction H as [|c bs Hc H IH]; intros [|n]; simpl; try constructor; auto.
Qed.

Lemma exponent_bytes_ascii (x : Z) : Ascii (FloatRepr.exponent_bytes x).
Proof.
  unfold FloatRepr.exponent_bytes.
  apply Ascii_cons; [destruct (x <? 0); reflexivity|].
  destruct (_ <? _)%nat;
    [apply Ascii_cons; [reflexivity|] |]; apply int_str_ascii.
Qed.

Lemma layout_ascii (ds : bytes) (decpt : Z) :
  Ascii ds -> Ascii (FloatRepr.layout ds decpt).
Proof.
  intros Hds. unfold FloatRepr.layout.
  destruct (_ || _).
  - destruct ds as [|d1 rest]; [constructor|].
    inversion Hds; subst.
    apply Ascii_app.
    + apply Ascii_cons; [assumption|].
      destruct rest; [constructor|].
      apply Ascii_cons; [reflexivity | assumption].
    + apply Ascii_cons; [reflexivity | apply exponent_bytes_ascii].
  - destruct (decpt <=? 0).
    + repeat (apply Ascii_cons; [reflexivity|]).
      apply Ascii_app; [apply zeros_ascii | assumption].
    + destruct (_ <=? decpt).
      * apply Ascii_app; [assumption|].
        apply Ascii_app; [apply zeros_ascii|].
        repeat (apply Ascii_cons; [reflexivity|]). constructor.
      * apply Ascii_app; [apply firstn_ascii; assumption|].
        apply Ascii_cons; [reflexivity | apply skipn_ascii; assumption].
Qed.

Lemma sign_bytes_ascii (neg : bool) : Ascii (FloatRepr.sign_bytes neg).
Proof. destruct neg; repeat constructor. Qed.

Lemma float_str_ascii (x : pyfloat) : Ascii (FloatRepr.float_str x).
Proof.
  destruct x as [|neg|neg|neg m e]; simpl.
  - repeat (apply Ascii_cons; [reflexivity|]). constructor.
  - apply Ascii_app; [apply sign_bytes_ascii|].
    repeat (apply Ascii_cons; [reflexivity|]). constructor.
  - apply Ascii_app; [apply sign_bytes_ascii|].
    repeat (apply Ascii_cons; [reflexivity|]). constructor.
  - unfold FloatRepr.digits.
    destruct (FloatRepr.normalize m e) as [m' e'].
    destruct (FloatRepr.shortest _ _ _ _ _ _ _) as [q p].
    destruct (FloatRepr.strip_zeros _ _ _) as [q' p'].
    apply Ascii_app; [apply sign_bytes_ascii|].
    apply layout_ascii, int_str_ascii.
Qed.

(** ** The converter table, value by value *)

Lemma str_int (z : Z) : str_ (PInt z) = Ok (PStr (map Byte.to_N (Dec.int_str z))).
Proof. reflexivity. Qed.

Lemma encode_utf8_ascii (bs : bytes) :
  Ascii bs -> encode_utf8 (PStr (map Byte.to_N bs)) = Ok (PBytes bs).
Proof.
  intros H. unfold encode_utf8. cbn [base].
  rewrite (utf8_encode_ascii bs H). reflexivity.
Qed.

Lemma convert_spec (v : pyval) :
  convert v =
  match v with
  | PBytes _ | PByteArray _ => Ok v
  | PStr s =>
      match Utf8.encode s with
      | inl c => Err (UnicodeEncodeError c)
      | inr bs => Ok (PBytes bs)
      end
  | PInt z => Ok (PBytes (Dec.int_str z))
  | PFloat x => Ok (PBytes (FloatRepr.float_str x))
  | _ => Err (KeyError (PType (type_of v)))
  end.
Proof.
  destruct v; try reflexivity.
  - change (convert (PInt z))
      with (rbind (str_ (PInt z)) (fun s => encode_utf8 s)).
    rewrite str_int. apply encode_utf8_ascii, int_str_ascii.
  - change (convert (PFloat x))
      with (rbind (Ok (PStr (map Byte.to_N (FloatRepr.float_str x))))
              (fun s => encode_utf8 s)).
    apply encode_utf8_ascii, float_str_ascii.
Qed.

(** A value the table has no converter for, or whose converter raises. *)
Lemma convert_canonical (v : pyval) :
  match canonical v with
  | Some bs =>
      exists barg, convert v = Ok barg /\ buffer barg = Ok bs
                   /\ py_len barg = Ok (Z.of_nat (length bs))
  | None => exists e, convert v = Err e
  end.
Proof.
  rewrite convert_spec. destruct v; simpl; eauto.
  destruct (Utf8.encode s); eauto.
Qed.

Lemma supported_canonical (v : pyval) :
  supported v = true -> utf8_ok v -> exists bs, canonical v = Some bs.
Proof.
  destruct v; cbv [supported supported_type type_of]; try discriminate;
    simpl; eauto.
  intros _ H. induction H as [|c s Hc _ IH]; simpl; eauto.
  destruct (Utf8.encode_char c); [|congruence].
  destruct IH as [bs IH]. destruct (Utf8.encode s); [discriminate|]. eauto.
Qed.

Lemma unsupported_canonical (v : pyval) :
  supported v = false -> canonical v = None.
Proof.
  destruct v; cbv [supported supported_type type_of canonical]; intros H;
    try discriminate H; reflexivity.
Qed.

(** ** Invariants of the cache *)

Section Preserves.

Variable I : Lru.cache -> Prop.

Lemma preserves_ret {A} (a : A) : preserves I (ret a).
Proof. intros c H. exact H. Qed.

Lemma preserves_raise {A} (e : exn) : preserves I (@raise A e).
Proof. intros c H. exact H. Qed.

Lemma preserves_lift {A} (r : result A) : preserves I (lift r).
Proof. intros c H. exact H. Qed.

Lemma preserves_bind {A B} (m : M A) (k : A -> M B) :
  preserves I m -> (forall a, preserves I (k a)) -> preserves I (bind m k).
Proof.
  intros Hm Hk c H. unfold bind.
  specialize (Hm c H). destruct (m c) as [[e|a] c']; simpl in *.
  - exact Hm.
  - apply Hk, Hm.
Qed.

Lemma preserves_try {A} (m : M A) (h : exn -> M A) :
  preserves I m -> (forall e, preserves I (h e)) -> preserves I (try_except m h).
Proof.
  intros Hm Hh c H. unfold try_except.
  specialize (Hm c H). destruct (m c) as [[e|a] c']; simpl in *.
  - apply Hh, Hm.
  - exact Hm.
Qed.

Hypothesis bytes_len_preserves : forall n, preserves I (_bytes_len n).

Lemma preserves_encode_arg (parts : list pyval) (arg : pyval) :
  preserves I (encode_arg parts arg).
Proof.
  unfold encode_arg.
  repeat (apply preserves_bind;
          [first [apply preserves_lift | apply bytes_len_preserves] | intros ?]).
  apply preserves_ret.
Qed.

Lemma preserves_encode_loop (args parts : list pyval) :
  preserves I (encode_loop parts args).
Proof.
  revert parts. induction args as [|arg args IH]; intros parts; simpl.
  - apply preserves_ret.
  - apply preserves_bind; [|intros; apply IH].
    apply preserves_try; [apply preserves_encode_arg|].
    intros; apply preserves_raise.
Qed.

Lemma preserves_encode_command (args : list pyval) :
  preserves I (encode_command args).
Proof.
  unfold encode_command.
  apply preserves_bind; [apply bytes_len_preserves | intros n].
  apply preserves_bind; [apply preserves_encode_loop | intros parts].
  apply preserves_bind; [apply preserves_lift | intros joined].
  apply preserves_ret.
Qed.

Lemma preserves_history (history : list call) (c : Lru.cache) :
  I c -> I (fold_left run_call history c).
Proof.
  revert c. induction history as [|k history IH]; intros c H; simpl; [exact H|].
  apply IH. destruct k; simpl.
  - apply bytes_len_preserves, H.
  - apply preserves_encode_command, H.
Qed.

End Preserves.

Lemma bytes_len_body_spec (n : Z) :
  _bytes_len_body n = Ok (PBytes (Dec.int_str n)).
Proof.
  unfold _bytes_len_body. rewrite str_int.
  apply encode_utf8_ascii, int_str_ascii.
Qed.

Lemma lookup_coherent (c : Lru.cache) (n : Z) (v : pyval) :
  coherent c -> Lru.lookup n c = Some v -> v = PBytes (Dec.int_str n).
Proof.
  induction 1 as [|[k w] c Hk _ IH]; simpl; [discriminate|].
  destruct (Z.eqb_spec k n) as [->|_]; [|exact IH].
  intros [= <-]. exact Hk.
Qed.

Lemma remove_coherent (c : Lru.cache) (n : Z) :
  coherent c -> coherent (Lru.remove n c).
Proof.
  induction 1 as [|[k w] c Hk Hc IH]; simpl; [constructor|].
  destruct (k =? n); [exact Hc | constructor; assumption].
Qed.

Lemma removelast_coherent (c : Lru.cache) :
  coherent c -> coherent (removelast c).
Proof.
  induction 1 as [|kv c Hk Hc IH]; simpl; [constructor|].
  destruct c; [constructor | constructor; assumption].
Qed.

Lemma remove_length (c : Lru.cache) (n : Z) (v : pyval) :
  Lru.lookup n c = Some v -> S (length (Lru.remove n c)) = length c.
Proof.
  induction c as [|[k w] c IH]; simpl; [discriminate|].
  destruct (k =? n); [reflexivity|].
  intros H. simpl. rewrite (IH H). reflexivity.
Qed.

Lemma removelast_length (c : Lru.cache) :
  c <> [] -> S (length (removelast c)) = length c.
Proof.
  induction c as [|kv c IH]; [congruence|]. intros _.
  destruct c as [|kv' c]; [reflexivity|].
  change (S (S (length (removelast (kv' :: c)))) = S (length (kv' :: c))).
  rewrite IH; [reflexivity | discriminate].
Qed.

(** What [_bytes_len] returns on a coherent cache, and the cache it leaves. *)
Lemma bytes_len_spec (n : Z) (c : Lru.cache) :
  coherent c ->
  fst (_bytes_len n c) = Ok (PBytes (Dec.int_str n))
  /\ coherent (snd (_bytes_len n c)).
Proof.
  intros H. unfold _bytes_len, Lru.call.
  destruct (Lru.lookup n c) as [v|] eqn:E.
  - apply (lookup_coherent c n v H) in E. subst v. simpl. split; [reflexivity|].
    constructor; [reflexivity | apply remove_coherent, H].
  - rewrite bytes_len_body_spec. unfold Ok. cbn [fst snd]. split; [reflexivity|].
    constructor; [reflexivity|].
    destruct (maxsize <=? length c)%nat; [apply removelast_coherent, H | exact H].
Qed.

Lemma bytes_len_coherent (n : Z) : preserves coherent (_bytes_len n).
Proof. intros c H. apply bytes_len_spec, H. Qed.

Lemma bytes_len_bounded (n : Z) : preserves bounded (_bytes_len n).
Proof.
  intros c H. unfold bounded in *. unfold _bytes_len, Lru.call.
  destruct (Lru.lookup n c) as [v|] eqn:E.
  - cbn [fst snd length]. rewrite (remove_length c n v E). exact H.
  - rewrite bytes_len_body_spec. unfold Ok. cbn [fst snd length].
    destruct (Nat.leb_spec maxsize (length c)) as [Hfull|Hroom].
    + rewrite removelast_length; [exact H|].
      intros ->. unfold maxsize in Hfull. cbn [length] in Hfull. lia.
    + lia.
Qed.

(** ** [encode_command], argument by argument *)

Lemma rmap_nil {A B} (f : A -> result B) : rmap f [] = Ok [].
Proof. reflexivity. Qed.

Lemma rmap_cons {A B} (f : A -> result B) (a : A) (l : list A) :
  rmap f (a :: l)
  = match f a with
    | inl e => inl e
    | inr y => match rmap f l with inl e => inl e | inr r => inr (y :: r) end
    end.
Proof. reflexivity. Qed.

Lemma rmap_app {A B} (f : A -> result B) (l1 l2 : list A) (r1 r2 : list B) :
  rmap f l1 = Ok r1 -> rmap f l2 = Ok r2 -> rmap f (l1 ++ l2) = Ok (r1 ++ r2).
Proof.
  revert r1. induction l1 as [|a l1 IH]; intros r1 H1 H2.
  - rewrite rmap_nil in H1. injection H1 as <-. exact H2.
  - rewrite rmap_cons in H1.
    change ((a :: l1) ++ l2) with (a :: (l1 ++ l2)). rewrite rmap_cons.
    destruct (f a) as [e|y]; [discriminate|].
    destruct (rmap f l1) as [e|r]; [discriminate|].
    injection H1 as <-. rewrite (IH r eq_refl H2). reflexivity.
Qed.

(** The parts of one bulk string, once joined. *)
Lemma rmap_buffer_bulk (barg : pyval) (bs : bytes) :
  buffer barg = Ok bs ->
  rmap buffer
    [PBytes (b "$"); PBytes (Dec.int_str (Z.of_nat (length bs)));
     PBytes CRLF; barg; PBytes CRLF]
  = Ok [b "$"; Dec.int_str (Z.of_nat (length bs)); CRLF; bs; CRLF].
Proof. intros H. simpl. rewrite H. reflexivity. Qed.

Lemma bind_ok {A B} (m : M A) (k : A -> M B) (c : Lru.cache) (a : A) :
  fst (m c) = Ok a -> bind m k c = k a (snd (m c)).
Proof.
  unfold bind. destruct (m c) as [[e|x] c']; cbn [fst snd]; intros H;
    [discriminate H | injection H as ->; reflexivity].
Qed.

Lemma bind_err {A B} (m : M A) (k : A -> M B) (c : Lru.cache) (e : exn) :
  fst (m c) = Err e -> bind m k c = (Err e, snd (m c)).
Proof.
  unfold bind. destruct (m c) as [[e'|x] c']; cbn [fst snd]; intros H;
    [injection H as ->; reflexivity | discriminate H].
Qed.

Lemma try_ok {A} (m : M A) (h : exn -> M A) (c : Lru.cache) (a : A) :
  fst (m c) = Ok a -> try_except m h c = (Ok a, snd (m c)).
Proof.
  unfold try_except. destruct (m c) as [[e|x] c']; cbn [fst snd]; intros H;
    [discriminate H | injection H as ->; reflexivity].
Qed.

Lemma try_err {A} (m : M A) (h : exn -> M A) (c : Lru.cache) (e : exn) :
  fst (m c) = Err e -> try_except m h c = h e (snd (m c)).
Proof.
  unfold try_except. destruct (m c) as [[e'|x] c']; cbn [fst snd]; intros H;
    [injection H as ->; reflexivity | discriminate H].
Qed.

Lemma bind_lift_ok {A B} (r : result A) (k : A -> M B) (c : Lru.cache) (a : A) :
  r = Ok a -> bind (lift r) k c = k a c.
Proof. intros ->. reflexivity. Qed.

Lemma bind_lift_err {A B} (r : result A) (k : A -> M B) (c : Lru.cache)
    (e : exn) :
  r = Err e -> bind (lift r) k c = (Err e, c).
Proof. intros ->. reflexivity. Qed.

Lemma encode_arg_ok (parts : list pyval) (arg : pyval) (c : Lru.cache)
    (bufs : list bytes) (bs : bytes) :
  coherent c -> canonical arg = Some bs -> rmap buffer parts = Ok bufs ->
  exists parts',
    fst (encode_arg parts arg c) = Ok parts'
    /\ rmap buffer parts'
       = Ok (bufs ++ [b "$"; Dec.int_str (Z.of_nat (length bs)); CRLF; bs; CRLF]).
Proof.
  intros Hc Hcan Hparts.
  pose proof (convert_canonical arg) as Hconv. rewrite Hcan in Hconv.
  destruct Hconv as (barg & Hconv & Hbuf & Hlen).
  unfold convert, rbind in Hconv.
  destruct (converters_getitem (type_of arg)) as [e|conv] eqn:Eget;
    [discriminate Hconv|].
  destruct (bytes_len_spec (Z.of_nat (length bs)) c Hc) as [Hv _].
  unfold encode_arg.
  rewrite (bind_lift_ok _ _ c conv Eget). cbv beta.
  rewrite (bind_lift_ok _ _ c barg Hconv). cbv beta.
  rewrite (bind_lift_ok _ _ c _ Hlen). cbv beta.
  rewrite (bind_ok _ _ c _ Hv).
  unfold ret. cbn [fst].
  eexists. split; [reflexivity|].
  apply rmap_app; [exact Hparts | apply rmap_buffer_bulk, Hbuf].
Qed.

Lemma encode_arg_err (parts : list pyval) (arg : pyval) (c : Lru.cache) :
  canonical arg = None -> exists e, fst (encode_arg parts arg c) = Err e.
Proof.
  intros Hcan.
  pose proof (convert_canonical arg) as Hconv. rewrite Hcan in Hconv.
  destruct Hconv as (e & Hconv).
  unfold convert, rbind in Hconv.
  destruct (converters_getitem (type_of arg)) as [e'|conv] eqn:Eget;
    unfold encode_arg.
  - exists e'. rewrite (bind_lift_err _ _ c e' Eget). reflexivity.
  - exists e.
    rewrite (bind_lift_ok _ _ c conv Eget). cbv beta.
    rewrite (bind_lift_err _ _ c e Hconv). reflexivity.
Qed.

Lemma concat_bulk_parts (encs : list bytes) :
  concat (concat (map bulk_parts encs)) = concat (map bulk encs).
Proof.
  induction encs as [|bs encs IH]; [reflexivity|].
  cbn [map concat]. rewrite concat_app, IH.
  f_equal; unfold bulk_parts, bulk; cbn [concat]; rewrite ?app_nil_r; reflexivity.
Qed.

Lemma encode_loop_ok (args : list pyval) (encs : list bytes) :
  Forall2 encodes_as args encs ->
  forall parts bufs c,
    coherent c -> rmap buffer parts = Ok bufs ->
    exists parts',
      fst (encode_loop parts args c) = Ok parts'
      /\ rmap buffer parts' = Ok (bufs ++ concat (map bulk_parts encs)).
Proof.
  induction 1 as [|arg bs args encs Harg _ IH]; intros parts bufs c Hc Hparts.
  - exists parts. rewrite app_nil_r. split; [reflexivity | exact Hparts].
  - destruct (encode_arg_ok parts arg c bufs bs Hc Harg Hparts)
      as (parts1 & H1 & Hbuf1).
    pose proof (preserves_encode_arg coherent bytes_len_coherent parts arg c Hc)
      as Hc1.
    cbn [encode_loop].
    rewrite (bind_ok _ _ c parts1)
      by (rewrite (try_ok _ _ c parts1 H1); reflexivity).
    rewrite (try_ok _ _ c parts1 H1). cbn [snd].
    destruct (IH parts1 _ _ Hc1 Hbuf1) as (parts' & H' & Hbuf').
    exists parts'. split; [exact H'|].
    rewrite Hbuf'. cbn [map concat]. rewrite <- app_assoc. reflexivity.
Qed.

Lemma encode_loop_err (pre : list pyval) (encs : list bytes) (v : pyval)
    (post : list pyval) :
  Forall2 encodes_as pre encs -> canonical v = None ->
  forall parts bufs c,
    coherent c -> rmap buffer parts = Ok bufs ->
    fst (encode_loop parts (pre ++ v :: post) c) = Err (TypeError_argument v).
Proof.
  intros Hpre Hv.
  induction Hpre as [|arg bs args encs Harg _ IH]; intros parts bufs c Hc Hparts.
  - destruct (encode_arg_err parts v c Hv) as (e & He).
    cbn [app encode_loop].
    rewrite (bind_err _ _ c (TypeError_argument v))
      by (rewrite (try_err _ _ c e He); reflexivity).
    reflexivity.
  - destruct (encode_arg_ok parts arg c bufs bs Hc Harg Hparts)
      as (parts1 & H1 & Hbuf1).
    pose proof (preserves_encode_arg coherent bytes_len_coherent parts arg c Hc)
      as Hc1.
    cbn [app encode_loop].
    rewrite (bind_ok _ _ c parts1)
      by (rewrite (try_ok _ _ c parts1 H1); reflexivity).
    rewrite (try_ok _ _ c parts1 H1). cbn [snd].
    apply (IH parts1 _ _ Hc1 Hbuf1).
Qed.

Lemma encode_command_ok (args : list pyval) (encs : list bytes) (c : Lru.cache) :
  coherent c -> Forall2 encodes_as args encs ->
  fst (encode_command args c) = Ok (PByteArray (wire encs)).
Proof.
  intros Hc Hargs. unfold encode_command.
  destruct (bytes_len_spec (Z.of_nat (length args)) c Hc) as [Hn Hc1].
  rewrite (bind_ok _ _ c _ Hn).
  destruct (encode_loop_ok args encs Hargs
              [PBytes (b "*"); PBytes (Dec.int_str (Z.of_nat (length args)));
               PBytes CRLF]
              [b "*"; Dec.int_str (Z.of_nat (length args)); CRLF]
              _ Hc1 eq_refl) as (parts' & Hloop & Hbuf).
  rewrite (bind_ok _ _ _ _ Hloop).
  assert (Hjoin : bytes_join parts' = Ok (wire encs)).
  { unfold bytes_join, rbind. rewrite Hbuf. unfold Ok. f_equal.
    rewrite concat_app, concat_bulk_parts. unfold wire.
    rewrite (Forall2_length Hargs). cbn [concat]. rewrite app_nil_r.
    rewrite <- !app_assoc. reflexivity. }
  cbv beta. rewrite (bind_lift_ok _ _ _ (wire encs) Hjoin).
  reflexivity.
Qed.

Lemma encode_command_err (pre : list pyval) (encs : list bytes) (v : pyval)
    (post : list pyval) (c : Lru.cache) :
  coherent c -> Forall2 encodes_as pre encs -> canonical v = None ->
  fst (encode_command (pre ++ v :: post) c) = Err (TypeError_argument v).
Proof.
  intros Hc Hpre Hv. unfold encode_command.
  destruct (bytes_len_spec (Z.of_nat (length (pre ++ v :: post))) c Hc)
    as [Hn Hc1].
  rewrite (bind_ok _ _ c _ Hn).
  pose proof (encode_loop_err pre encs v post Hpre Hv
                [PBytes (b "*");
                 PBytes (Dec.int_str (Z.of_nat (length (pre ++ v :: post))));
                 PBytes CRLF] _ _ Hc1 eq_refl) as Hloop.
  rewrite (bind_err _ _ _ _ Hloop). reflexivity.
Qed.

Lemma cache_after_coherent (history : list call) : coherent (cache_after history).
Proof.
  apply (preserves_history coherent bytes_len_coherent). constructor.
Qed.

(** ** The parser reads back what the grammar writes *)

Lemma read_uint_bytes (u : Decimal.uint) (r : bytes) :
  Resp.read_uint (Dec.uint_bytes u ++ x0d :: r) = (u, x0d :: r).
Proof.
  induction u; simpl; try rewrite IHu; reflexivity.
Qed.

Lemma to_int_of_nat (n : nat) :
  Z.to_int (Z.of_nat n) = Decimal.Pos (N.to_uint (N.of_nat n)).
Proof. destruct n; reflexivity. Qed.

Lemma to_uint_not_nil (n : N) : N.to_uint n <> Decimal.Nil.
Proof.
  intros H. pose proof (DecimalN.Unsigned.of_to n) as E. rewrite H in E.
  destruct n as [|p]; [discriminate H|].
  simpl in E. discriminate E.
Qed.

Lemma read_len_int_str (n : nat) (r : bytes) :
  Resp.read_len (Dec.int_str (Z.of_nat n) ++ CRLF ++ r) = Some (n, r).
Proof.
  unfold Resp.read_len, Dec.int_str. rewrite to_int_of_nat.
  change (CRLF ++ r) with (x0d :: x0a :: r). rewrite read_uint_bytes.
  pose proof (to_uint_not_nil (N.of_nat n)) as Hnil.
  pose proof (DecimalN.Unsigned.of_to (N.of_nat n)) as Hof.
  destruct (N.to_uint (N.of_nat n)); try congruence;
    rewrite Hof, Nat2N.id; reflexivity.
Qed.

Lemma read_bulk_bulk (x r : bytes) :
  Resp.read_bulk (bulk x ++ r) = Some (x, r).
Proof.
  unfold bulk. change (b "$") with [x24].
  cbn [app]. unfold Resp.read_bulk.
  rewrite <- !app_assoc. rewrite read_len_int_str.
  assert (Hlen : (length x <=? length (x ++ CRLF ++ r))%nat = true).
  { apply Nat.leb_le. rewrite length_app. lia. }
  rewrite Hlen.
  rewrite skipn_app, skipn_all, Nat.sub_diag, firstn_app, firstn_all.
  rewrite Nat.sub_diag. simpl. rewrite app_nil_r. reflexivity.
Qed.

Lemma read_bulks_bulks (xs : list bytes) (r : bytes) :
  Resp.read_bulks (length xs) (concat (map bulk xs) ++ r) = Some (xs, r).
Proof.
  induction xs as [|x xs IH]; [reflexivity|].
  cbn [length map concat Resp.read_bulks].
  rewrite <- app_assoc, read_bulk_bulk, IH. reflexivity.
Qed.

Lemma parse_wire (xs : list bytes) : Resp.parse (wire xs) = Some xs.
Proof.
  unfold wire. change (b "*") with [x2a]. cbn [app]. unfold Resp.parse.
  rewrite read_len_int_str.
  rewrite <- (app_nil_r (concat (map bulk xs))), read_bulks_bulks. reflexivity.
Qed.

(** ** C1: the wire format of [encode_command] *)

(** C1, as stated, fails: a text argument is of a supported kind, yet when
    it holds a lone surrogate its converter raises, and [encode_command]
    turns that into its [TypeError]; no buffer is returned. *)
Lemma encode_command_lone_surrogate :
  supported lone_surrogate = true
  /\ encode_command0 [lone_surrogate] = Err (TypeError_argument lone_surrogate).
Proof. split; reflexivity. Qed.

(** C1 (amended): for every argument list whose elements are each of the
    four supported kinds and whose text arguments UTF-8 can encode, and
    whatever calls came before, [encode_command] returns a bytearray that
    is exactly [*<N>\r\n] followed, per argument in order, by
    [$<len>\r\n<bytes>\r\n], where [<bytes>] is the canonical encoding and
    [<len>] its byte length; the reference parser reads the encodings back
    from it; and SET key 42 3.14 gives the buffer of the specification. *)
Theorem encode_command_wire_format :
  (forall (history : list call) (args : list pyval),
      Forall (fun a => supported a = true /\ utf8_ok a) args ->
      exists encs,
        Forall2 encodes_as args encs
        /\ fst (encode_command args (cache_after history))
           = Ok (PByteArray (wire encs))
        /\ Resp.parse (wire encs) = Some encs)
  /\ encode_command0 set_key_42_3_14 = Ok (PByteArray set_key_42_3_14_wire)
  /\ Resp.parse set_key_42_3_14_wire
     = Some [b "SET"; b "key"; b "42"; b "3.14"].
Proof.
  split; [|split; vm_compute; reflexivity].
  intros history args Hargs.
  assert (Hencs : exists encs, Forall2 encodes_as args encs).
  { induction Hargs as [|a args [Hs Hu] _ [encs IH]].
    - exists []. constructor.
    - destruct (supported_canonical a Hs Hu) as [bs Hbs].
      exists (bs :: encs). constructor; assumption. }
  destruct Hencs as [encs Hencs]. exists encs.
  split; [exact Hencs|]. split; [|apply parse_wire].
  apply encode_command_ok; [apply cache_after_coherent | exact Hencs].
Qed.

Lemma encode_command_wire_format_witness :
  exists encs,
    Forall2 encodes_as [PStr (t "GET"); PBytes (b "k"); PInt (-7)] encs
    /\ fst (encode_command [PStr (t "GET"); PBytes (b "k"); PInt (-7)]
              (cache_after [Call_bytes_len 3]))
       = Ok (PByteArray (wire encs))
    /\ Resp.parse (wire encs) = Some encs.
Proof.
  apply (proj1 encode_command_wire_format [Call_bytes_len 3]
           [PStr (t "GET"); PBytes (b "k"); PInt (-7)]).
  repeat constructor; discriminate.
Defined.

(** ** C6: an argument of another kind *)

(** The first argument without a canonical encoding splits the list. *)
Lemma first_unencodable (args : list pyval) :
  Exists (fun a => canonical a = None) args ->
  exists pre encs v post,
    args = pre ++ v :: post /\ Forall2 encodes_as pre encs /\ canonical v = None.
Proof.
  induction args as [|a args IH]; intros H; [inversion H|].
  destruct (canonical a) as [bs|] eqn:Ea.
  - assert (Htl : Exists (fun a => canonical a = None) args).
    { inversion H; subst; [congruence | assumption]. }
    destruct (IH Htl) as (pre & encs & v & post & -> & Hpre & Hv).
    exists (a :: pre), (bs :: encs), v, post.
    repeat split; [constructor; assumption | exact Hv].
  - exists [], [], a, args. repeat split; [constructor | exact Ea].
Qed.




(** ** C10: dispatch by exact type *)

Lemma strict_subclass_unsupported (ty sub : pytype) :
  supported_type ty = true -> strict_subclass sub ty = true ->
  supported_type sub = false.
Proof.
  destruct ty; try discriminate; intros _; destruct sub;
    try reflexivity; discriminate.
Qed.

Lemma convert_unsupported (v : pyval) :
  supported v = false -> convert v = Err (KeyError (PType (type_of v))).
Proof.
  rewrite convert_spec. destruct v; cbv [supported supported_type type_of];
    intros H; try discriminate H; reflexivity.
Qed.

Lemma coerce_not_bytes (other : pyval) :
  isinstance other TBytes = false ->
  coerced_keys_dict.coerce other = convert other.
Proof. intros H. unfold coerced_keys_dict.coerce. rewrite H. reflexivity. Qed.

Lemma coerce_bytes (other : pyval) :
  isinstance other TBytes = true -> coerced_keys_dict.coerce other = Ok other.
Proof. intros H. unfold coerced_keys_dict.coerce. rewrite H. reflexivity. Qed.

(** C10, as stated, fails for the mapping: a key whose type is a strict
    subclass of [bytes] passes the [isinstance] test, so the lookup neither
    coerces nor fails; it finds the entry stored under the equal blob. *)
Lemma lookup_bytes_subclass_succeeds :
  strict_subclass (type_of bytes_subclass_key) TBytes = true
  /\ coerced_keys_dict.__getitem__ [(PBytes (b "x"), PInt 1)] bytes_subclass_key
     = Ok (PInt 1)
  /\ coerced_keys_dict.__contains__ [(PBytes (b "x"), PInt 1)] bytes_subclass_key
     = Ok true.
Proof. repeat split. Qed.

(** C10 (amended): the converter is found by the exact runtime type.  For
    every value whose type is a strict subclass of a supported type ([bool]
    under [int], a user-defined class under any of them) the table has no
    entry: [encode_command] raises its [TypeError] for every argument list
    that holds the value, naming the value when it is the only argument; a
    lookup or membership test of the mapping raises the table's [KeyError]
    on the value's type when the value is no instance of [bytes], and when
    it is one (a subclass of [bytes]) goes to the underlying dict with the
    key as it is. *)
Theorem exact_type_dispatch (ty : pytype) (v : pyval) :
  supported_type ty = true ->
  strict_subclass (type_of v) ty = true ->
  converters_getitem (type_of v) = Err (KeyError (PType (type_of v)))
  /\ (forall history,
        fst (encode_command [v] (cache_after history)) = Err (TypeError_argument v))
  /\ (forall history args,
        In v args ->
        exists w, fst (encode_command args (cache_after history))
                  = Err (TypeError_argument w))
  /\ (forall self,
        isinstance v TBytes = false ->
        coerced_keys_dict.__getitem__ self v = Err (KeyError (PType (type_of v)))
        /\ coerced_keys_dict.__contains__ self v
           = Err (KeyError (PType (type_of v))))
  /\ (forall self,
        isinstance v TBytes = true ->
        coerced_keys_dict.__getitem__ self v = dict_getitem self v
        /\ coerced_keys_dict.__contains__ self v = dict_contains self v).
Proof.
  intros Hty Hsub.
  pose proof (strict_subclass_unsupported ty (type_of v) Hty Hsub) as Hun.
  change (supported v = false) in Hun.
  pose proof (unsupported_canonical v Hun) as Hcan.
  split; [|split; [|split; [|split]]].
  - clear Hsub Hcan. unfold supported in Hun. unfold converters_getitem.
    destruct (type_of v); try discriminate Hun; reflexivity.
  - intros history.
    apply (encode_command_err [] [] v [] (cache_after history));
      [apply cache_after_coherent | constructor | exact Hcan].
  - intros history args Hin.
    assert (H' : Exists (fun a => canonical a = None) args).
    { apply Exists_exists. exists v. split; assumption. }
    destruct (first_unencodable args H') as (pre & encs & w & post & -> & Hpre & Hw).
    exists w. apply (encode_command_err pre encs w post);
      [apply cache_after_coherent | exact Hpre | exact Hw].
  - intros self Hb.
    unfold coerced_keys_dict.__getitem__, coerced_keys_dict.__contains__.
    rewrite (coerce_not_bytes v Hb), (convert_unsupported v Hun).
    split; reflexivity.
  - intros self Hb.
    unfold coerced_keys_dict.__getitem__, coerced_keys_dict.__contains__.
    rewrite (coerce_bytes v Hb). split; reflexivity.
Qed.

Lemma exact_type_dispatch_witness :
  converters_getitem TBool = Err (KeyError (PType TBool))
  /\ (forall history,
        fst (encode_command [PBool true] (cache_after history))
        = Err (TypeError_argument (PBool true)))
  /\ (forall history args,
        In (PBool true) args ->
        exists w, fst (encode_command args (cache_after history))
                  = Err (TypeError_argument w))
  /\ (forall self,
        isinstance (PBool true) TBytes = false ->
        coerced_keys_dict.__getitem__ self (PBool true)
        = Err (KeyError (PType TBool))
        /\ coerced_keys_dict.__contains__ self (PBool true)
           = Err (KeyError (PType TBool)))
  /\ (forall self,
        isinstance (PBool true) TBytes = true ->
        coerced_keys_dict.__getitem__ self (PBool true)
        = dict_getitem self (PBool true)
        /\ coerced_keys_dict.__contains__ self (PBool true)
           = dict_contains self (PBool true)).
Proof.
  apply (exact_type_dispatch TInt (PBool true)); reflexivity.
Defined.

(** ** C4: the mapping that coerces its keys *)


Lemma bytes_eqb_eq (x y : bytes) : bytes_eqb x y = true <-> x = y.
Proof.
  unfold bytes_eqb. destruct (list_eq_dec _ x y); split; congruence.
Qed.


Lemma coerce_canonical (key : pyval) (bs : bytes) :
  coerced_kind key = true -> canonical key = Some bs ->
  coerced_keys_dict.coerce key = Ok (PBytes bs).
Proof.
  intros Hk Hcan.
  destruct key; try discriminate Hk; cbn [canonical] in Hcan;
    try (rewrite coerce_not_bytes by reflexivity; rewrite convert_spec).
  - congruence.
  - congruence.
  - injection Hcan as ->. reflexivity.
  - destruct (Utf8.encode s); congruence.
Qed.

(** The failure of the converter table reaches the caller of the mapping
    as it is, a [KeyError] on the key's type; [encode_command] wraps the
    same failure in its [TypeError] on the value. *)
Lemma unsupported_key_and_argument :
  encode_command0 [PList []] = Err (TypeError_argument (PList []))
  /\ coerced_keys_dict.__getitem__ [(PBytes (b "x"), PInt 1)] (PList [])
     = Err (KeyError (PType TList))
  /\ coerced_keys_dict.__contains__ [(PBytes (b "x"), PInt 1)] (PList [])
     = Err (KeyError (PType TList)).
Proof. repeat split. Qed.



(** ** Pairing *)

Lemma zip_same_iter_flatten (pairs : list (pyval * pyval)) :
  zip_same_iter (flatten pairs) = pairs.
Proof.
  induction pairs as [|[k v] pairs IH]; [reflexivity|].
  change (flatten ((k, v) :: pairs)) with (k :: v :: flatten pairs).
  cbn [zip_same_iter]. rewrite IH. reflexivity.
Qed.

Lemma zip_same_iter_flatten_odd (pairs : list (pyval * pyval)) (x : pyval) :
  zip_same_iter (flatten pairs ++ [x]) = pairs.
Proof.
  induction pairs as [|[k v] pairs IH]; [reflexivity|].
  change (flatten ((k, v) :: pairs) ++ [x])
    with (k :: v :: (flatten pairs ++ [x])).
  cbn [zip_same_iter]. rewrite IH. reflexivity.
Qed.

Lemma list_pair_ind (A : Type) (P : list A -> Prop) :
  P [] -> (forall x, P [x]) -> (forall x y l, P l -> P (x :: y :: l)) ->
  forall l, P l.
Proof.
  intros H0 H1 H2.
  assert (H : forall l, P l /\ forall x, P (x :: l)).
  { induction l as [|a l [IH IH']]; split; auto. }
  intros l. apply H.
Qed.

Lemma slices_zip (l : list pyval) :
  zip_tuples (evens l) (odds l) = map tuple_of (zip_same_iter l).
Proof.
  induction l as [|x|x y l IH] using list_pair_ind; try reflexivity.
  change (zip_tuples (evens (x :: y :: l)) (odds (x :: y :: l)))
    with (tuple_of (x, y) :: zip_tuples (evens l) (odds l)).
  rewrite IH. reflexivity.
Qed.

Lemma dict_store_fresh (kvs : list (bytes * pyval)) (k : bytes) (v : pyval) :
  ~ In k (map fst kvs) ->
  dict_store (blob_items kvs) (PBytes k) v = blob_items (kvs ++ [(k, v)]).
Proof.
  induction kvs as [|[k0 v0] kvs IH]; intros Hk; [reflexivity|].
  simpl in Hk. cbn [blob_items map dict_store fst snd app].
  assert (E : py_eq (PBytes k0) (PBytes k) = false).
  { simpl. destruct (bytes_eqb k0 k) eqn:E; [|reflexivity].
    apply bytes_eqb_eq in E. tauto. }
  rewrite E. f_equal. apply IH. tauto.
Qed.

Lemma dict_of_blob_items_from (kvs kvs0 : list (bytes * pyval)) :
  NoDup (map fst (kvs0 ++ kvs)) ->
  fold_left
    (fun acc kv => (d <- acc ;; dict_setitem d (fst kv) (snd kv))%result)
    (blob_items kvs) (Ok (blob_items kvs0))
  = Ok (blob_items (kvs0 ++ kvs)).
Proof.
  revert kvs0. induction kvs as [|[k v] kvs IH]; intros kvs0 Hnd.
  - rewrite app_nil_r. reflexivity.
  - change (blob_items ((k, v) :: kvs)) with ((PBytes k, v) :: blob_items kvs).
    cbn [fold_left].
    assert (E : rbind (Ok (blob_items kvs0))
                  (fun d => dict_setitem d (fst (PBytes k, v)) (snd (PBytes k, v)))
                = Ok (blob_items (kvs0 ++ [(k, v)]))).
    { unfold rbind, Ok, dict_setitem. cbn [fst snd hashable].
      rewrite dict_store_fresh; [reflexivity|].
      rewrite map_app in Hnd. cbn [map fst] in Hnd.
      apply NoDup_remove_2 in Hnd. intros Hin. apply Hnd.
      apply in_or_app. left. exact Hin. }
    rewrite E, (IH (kvs0 ++ [(k, v)])).
    + rewrite <- app_assoc. reflexivity.
    + rewrite <- app_assoc. exact Hnd.
Qed.

Lemma dict_of_blob_items (kvs : list (bytes * pyval)) :
  NoDup (map fst kvs) -> dict_of (blob_items kvs) = Ok (blob_items kvs).
Proof. intros H. apply (dict_of_blob_items_from kvs []). exact H. Qed.

(** ** Scan primitives that answer from a script *)

Section Scripted.

Variable regroup : list pyval -> list pyval.

Lemma anext_buffered (St : Type) (scan : scan_fn St) (fuel : nat) (s : St)
    (cur x : pyval) (rest : list pyval) :
  anext_with St scan regroup fuel s {| _cur := cur; _ret := x :: rest |}
  = Some (s, {| _cur := cur; _ret := rest |}, Ok x).
Proof.
  unfold anext_with, pop_or_stop.
  destruct fuel; cbn [fetch _ret _cur nonempty negb andb];
    rewrite andb_false_r; reflexivity.
Qed.

Lemma anext_exhausted (St : Type) (scan : scan_fn St) (fuel : nat) (s : St)
    (cur : pyval) :
  truthy cur = false ->
  anext_with St scan regroup fuel s {| _cur := cur; _ret := [] |}
  = Some (s, {| _cur := cur; _ret := [] |}, Err StopAsyncIteration).
Proof.
  intros H. unfold anext_with, pop_or_stop.
  destruct fuel; cbn [fetch _ret _cur nonempty negb andb]; rewrite H;
    cbn [_ret _cur nonempty negb andb]; rewrite H; reflexivity.
Qed.

Lemma anext_fetches (St : Type) (scan : scan_fn St) (fuel : nat) (s : St)
    (cur : pyval) :
  truthy cur = true ->
  anext_with St scan regroup (S fuel) s {| _cur := cur; _ret := [] |}
  = match scan s cur with
    | (s', inl e) => Some (s', {| _cur := cur; _ret := [] |}, Err e)
    | (s', inr (cur', ret)) =>
        anext_with St scan regroup fuel s' {| _cur := cur'; _ret := regroup ret |}
    end.
Proof.
  intros H. unfold anext_with.
  cbn [fetch _ret _cur nonempty negb andb]. rewrite H.
  destruct (scan s cur) as [s' [e|[cur' ret]]]; reflexivity.
Qed.

Lemma anext_script (script : list page) :
  forall (cur : pyval) (buf : list pyval) (fuel : nat),
    driven cur script -> (length script <= fuel)%nat ->
    match to_come regroup buf script with
    | [] =>
        exists s' it', scripted_anext regroup fuel script {| _cur := cur; _ret := buf |}
                       = Some (s', it', Err StopAsyncIteration)
    | x :: xs =>
        exists s' it',
          scripted_anext regroup fuel script {| _cur := cur; _ret := buf |} = Some (s', it', Ok x)
          /\ driven (_cur it') s'
          /\ to_come regroup (_ret it') s' = xs
          /\ (length s' <= length script)%nat
    end.
Proof.
  induction script as [|[cur' p] script IH]; intros cur buf fuel Hd Hfuel.
  - destruct buf as [|x rest]; unfold to_come; cbn [map concat app].
    + exists [], {| _cur := cur; _ret := [] |}.
      apply anext_exhausted. exact Hd.
    + exists [], {| _cur := cur; _ret := rest |}.
      unfold scripted_anext. rewrite anext_buffered.
      split; [reflexivity|]. split; [exact Hd|].
      split; [reflexivity | apply le_n].
  - destruct buf as [|x rest].
    + destruct Hd as [Hcur Hd].
      destruct fuel as [|fuel]; [cbn [length] in Hfuel; lia|].
      assert (Hfuel' : (length script <= fuel)%nat)
        by (cbn [length] in Hfuel; lia).
      unfold scripted_anext. rewrite (anext_fetches _ _ _ _ _ Hcur).
      cbn [scripted].
      specialize (IH cur' (regroup p) fuel Hd Hfuel').
      change (to_come regroup [] ((cur', p) :: script))
        with (to_come regroup (regroup p) script).
      destruct (to_come regroup (regroup p) script) as [|y ys].
      * exact IH.
      * destruct IH as (s' & it' & H1 & H2 & H3 & H4).
        exists s', it'.
        split; [exact H1|]. split; [exact H2|]. split; [exact H3|].
        cbn [length]. lia.
    + exists ((cur', p) :: script), {| _cur := cur; _ret := rest |}.
      unfold scripted_anext. rewrite anext_buffered.
      split; [reflexivity|]. split; [exact Hd|].
      split; [reflexivity | apply le_n].
Qed.

Lemma drain_script (items : list pyval) :
  forall (script : list page) (cur : pyval) (buf : list pyval) (fuel n : nat),
    driven cur script -> to_come regroup buf script = items ->
    (length script <= fuel)%nat -> (length items < n)%nat ->
    drain (list page) (scripted_anext regroup) fuel n script
      {| _cur := cur; _ret := buf |}
    = (items, Some (Ok tt)).
Proof.
  induction items as [|x xs IH]; intros script cur buf fuel n Hd Hitems Hfuel Hn;
    (destruct n as [|n]; [simpl in Hn; lia|]);
    pose proof (anext_script script cur buf fuel Hd Hfuel) as Hstep;
    rewrite Hitems in Hstep; simpl.
  - destruct Hstep as (s' & it' & ->). reflexivity.
  - destruct Hstep as (s' & it' & -> & Hd' & Hitems' & Hlen).
    destruct it' as [cur' buf']. simpl in Hd', Hitems'.
    rewrite (IH s' cur' buf' fuel n Hd' Hitems'); [reflexivity | lia |].
    simpl in Hn. lia.
Qed.

End Scripted.

(** ** C2: the plain scan iterator *)

Lemma fetch_always_zero (fuel : nat) :
  forall cur, truthy cur = true ->
    fetch unit always_zero (fun ret => ret) fuel tt {| _cur := cur; _ret := [] |}
    = None.
Proof.
  induction fuel as [|fuel IH]; intros cur H;
    cbn [fetch _ret _cur nonempty negb andb]; rewrite H; [reflexivity|].
  cbn [always_zero Ok]. apply IH. reflexivity.
Qed.

(** C2, as stated, fails: the loop tests the truth value of the cursor, and
    the token ["0"] is a non-empty text, so it is truthy.  With the pages of
    the claim the fourth call goes back to the primitive; against a primitive
    that immediately returns [("0", [])] the first call never returns; and
    against one that answers as a server does the items come round again. *)
Lemma text_zero_cursor_does_not_stop :
  drain (list page) (ScanIter_anext (list page) scripted) 5 5
    [(PStr (t "5"), [PInt 1; PInt 2]); (PStr (t "0"), [PInt 3])] init
  = ([PInt 1; PInt 2; PInt 3], Some (Err IndexError))
  /\ (forall fuel, ScanIter_anext unit always_zero fuel tt init = None)
  /\ drain unit (ScanIter_anext unit server_like) 3 7 tt init
     = ([PInt 1; PInt 2; PInt 3; PInt 1; PInt 2; PInt 3; PInt 1], None).
Proof.
  split; [reflexivity|]. split; [|reflexivity].
  intros fuel. unfold ScanIter_anext, anext_with, init.
  rewrite fetch_always_zero; reflexivity.
Qed.

(** C2 (amended): for every scan primitive, [__anext__] yields the buffered
    items one at a time in the order the primitive returned them, without
    calling the primitive while the buffer has an item; it ends the
    iteration exactly when the buffer is empty and the cursor is falsy (the
    integer [0]; a token such as ["0"] or [b"0"] is truthy), and with an
    empty buffer and a truthy cursor it calls the primitive again.  So a
    primitive whose answers are a list of pages, the last cursor falsy and
    the others truthy, is asked once per page, and the iteration yields the
    pages' items in order and then ends normally: pages [(5, [1, 2])] then
    [(0, [3])] yield exactly 1, 2, 3, and [(0, [])] yields nothing. *)
Theorem scan_iter_yields_pages_in_order :
  (forall St (scan : scan_fn St) fuel s cur x rest,
      ScanIter_anext St scan fuel s {| _cur := cur; _ret := x :: rest |}
      = Some (s, {| _cur := cur; _ret := rest |}, Ok x))
  /\ (forall St (scan : scan_fn St) fuel s cur,
        truthy cur = false ->
        ScanIter_anext St scan fuel s {| _cur := cur; _ret := [] |}
        = Some (s, {| _cur := cur; _ret := [] |}, Err StopAsyncIteration))
  /\ (forall St (scan : scan_fn St) fuel s cur,
        truthy cur = true ->
        ScanIter_anext St scan (S fuel) s {| _cur := cur; _ret := [] |}
        = match scan s cur with
          | (s', inl e) => Some (s', {| _cur := cur; _ret := [] |}, Err e)
          | (s', inr (cur', ret)) =>
              ScanIter_anext St scan fuel s' {| _cur := cur'; _ret := ret |}
          end)
  /\ (forall (script : list page) (fuel n : nat),
        driven (_cur init) script ->
        (length script <= fuel)%nat ->
        (length (concat (map snd script)) < n)%nat ->
        drain (list page) (ScanIter_anext (list page) scripted) fuel n script init
        = (concat (map snd script), Some (Ok tt)))
  /\ drain (list page) (ScanIter_anext (list page) scripted) 2 4
       [(PInt 5, [PInt 1; PInt 2]); (PInt 0, [PInt 3])] init
     = ([PInt 1; PInt 2; PInt 3], Some (Ok tt))
  /\ drain (list page) (ScanIter_anext (list page) scripted) 1 1
       [(PInt 0, [])] init
     = ([], Some (Ok tt)).
Proof.
  split; [|split; [|split; [|split; [|split; reflexivity]]]].
  - intros. apply anext_buffered.
  - intros. apply anext_exhausted. assumption.
  - intros. apply (anext_fetches (fun ret => ret)). assumption.
  - intros script fuel n Hd Hfuel Hn.
    apply (drain_script (fun ret => ret)); try assumption. reflexivity.
Qed.

Lemma scan_iter_yields_pages_in_order_witness :
  drain (list page) (ScanIter_anext (list page) scripted) 3 6
    [(PInt 7, [PBytes (b "a")]); (PInt 9, []); (PInt 0, [PBytes (b "c")])] init
  = ([PBytes (b "a"); PBytes (b "c")], Some (Ok tt)).
Proof.
  apply (proj1 (proj2 (proj2 (proj2 scan_iter_yields_pages_in_order)))
           [(PInt 7, [PBytes (b "a")]); (PInt 9, []); (PInt 0, [PBytes (b "c")])]
           3%nat 6%nat).
  - repeat split.
  - apply le_n.
  - repeat constructor.
Defined.

(** ** C3: pairing a flat reply *)

(** C3, as stated, fails on an odd length: nothing is raised.  The zip
    ends at the item that has no partner, so the adapter returns the mapping
    of the pairs before it, and the iterator yields those pairs and ends. *)
Lemma odd_length_drops_last_item :
  wait_make_dict (Finished (Ok (PList [key_a; PInt 1; key_b])))
  = Some (Ok (Mapping [(key_a, PInt 1)]))
  /\ drain (list page) (ScanIterPairs_anext (list page) scripted) 1 3
       [(PInt 0, [key_a; PInt 1; key_b])] init
     = ([PTuple [key_a; PInt 1]], Some (Ok tt)).
Proof. split; reflexivity. Qed.

Lemma wait_make_dict_list (l : list pyval) :
  wait_make_dict (Finished (Ok (PList l)))
  = Some (rbind (dict_of (zip_same_iter l)) (fun d => Ok (Mapping d))).
Proof. reflexivity. Qed.

(** C3 (amended): [wait_make_dict] and [_ScanIterPairs] regroup a flat
    sequence by pairing consecutive items: the pairs of [k1, v1, k2, v2, ...]
    are [(k1, v1), (k2, v2), ...], and a last item without a partner is
    dropped, no error raised.  The adapter returns the dict of those pairs
    (for distinct blob keys: exactly those items), so [a, 1, b, 2] becomes
    [{a: 1, b: 2}]; the iterator buffers them as tuples and yields them in
    order. *)
Theorem flat_reply_is_paired :
  (forall pairs, zip_same_iter (flatten pairs) = pairs)
  /\ (forall pairs x, zip_same_iter (flatten pairs ++ [x]) = pairs)
  /\ (forall l,
        wait_make_dict (Finished (Ok (PList l)))
        = Some (rbind (dict_of (zip_same_iter l)) (fun d => Ok (Mapping d))))
  /\ (forall kvs,
        NoDup (map fst kvs) ->
        wait_make_dict (Finished (Ok (PList (flatten (blob_items kvs)))))
        = Some (Ok (Mapping (blob_items kvs)))
        /\ forall x,
            wait_make_dict
              (Finished (Ok (PList (flatten (blob_items kvs) ++ [x]))))
            = Some (Ok (Mapping (blob_items kvs))))
  /\ (forall l, zip_tuples (evens l) (odds l) = map tuple_of (zip_same_iter l))
  /\ (forall (script : list page) (fuel n : nat),
        driven (_cur init) script ->
        (length script <= fuel)%nat ->
        (length (concat (map (fun p => zip_same_iter (snd p)) script)) < n)%nat ->
        drain (list page) (ScanIterPairs_anext (list page) scripted) fuel n
          script init
        = (map tuple_of (concat (map (fun p => zip_same_iter (snd p)) script)),
           Some (Ok tt)))
  /\ wait_make_dict (Finished (Ok (PList [key_a; PInt 1; key_b; PInt 2])))
     = Some (Ok (Mapping [(key_a, PInt 1); (key_b, PInt 2)])).
Proof.
  split; [exact zip_same_iter_flatten|].
  split; [exact zip_same_iter_flatten_odd|].
  split; [exact wait_make_dict_list|].
  split; [|split; [exact slices_zip|split; [|reflexivity]]].
  - intros kvs Hnd. split; [|intros x]; rewrite wait_make_dict_list.
    + rewrite zip_same_iter_flatten, (dict_of_blob_items kvs Hnd). reflexivity.
    + rewrite zip_same_iter_flatten_odd, (dict_of_blob_items kvs Hnd).
      reflexivity.
  - intros script fuel n Hd Hfuel Hn.
    assert (E : to_come (fun ret => zip_tuples (evens ret) (odds ret)) [] script
                = map tuple_of
                    (concat (map (fun p => zip_same_iter (snd p)) script))).
    { unfold to_come. cbn [app]. rewrite concat_map, map_map.
      f_equal. apply map_ext. intros p. apply slices_zip. }
    apply (drain_script (fun ret => zip_tuples (evens ret) (odds ret)));
      try assumption.
    rewrite length_map. exact Hn.
Qed.

Lemma flat_reply_is_paired_witness :
  (wait_make_dict
     (Finished (Ok (PList (flatten (blob_items [(b "k", PInt 1); (b "j", PNone)])))))
   = Some (Ok (Mapping (blob_items [(b "k", PInt 1); (b "j", PNone)])))
   /\ forall x,
       wait_make_dict
         (Finished
            (Ok (PList (flatten (blob_items [(b "k", PInt 1); (b "j", PNone)])
                        ++ [x]))))
       = Some (Ok (Mapping (blob_items [(b "k", PInt 1); (b "j", PNone)]))))
  /\ drain (list page) (ScanIterPairs_anext (list page) scripted) 2 3
       [(PInt 4, [key_a; PInt 1; key_b]); (PInt 0, [key_b; PInt 2])] init
     = (map tuple_of [(key_a, PInt 1); (key_b, PInt 2)], Some (Ok tt)).
Proof.
  split.
  - apply (proj1 (proj2 (proj2 (proj2 flat_reply_is_paired)))
             [(b "k", PInt 1); (b "j", PNone)]).
    repeat constructor; cbn [In map fst]; intros H;
      repeat destruct H as [H|H]; try discriminate H; exact H.
  - apply (proj1 (proj2 (proj2 (proj2 (proj2 (proj2 flat_reply_is_paired)))))
             [(PInt 4, [key_a; PInt 1; key_b]); (PInt 0, [key_b; PInt 2])]
             2%nat 3%nat).
    + repeat split.
    + apply le_n.
    + repeat constructor.
Defined.

(** ** C5: the OK adapter *)

Lemma bytes_eqb_sym (x y : bytes) : bytes_eqb x y = bytes_eqb y x.
Proof.
  unfold bytes_eqb.
  destruct (list_eq_dec Byte.byte_eq_dec x y),
    (list_eq_dec Byte.byte_eq_dec y x); congruence.
Qed.

Lemma text_eqb_sym (x y : text) : text_eqb x y = text_eqb y x.
Proof.
  unfold text_eqb.
  destruct (list_eq_dec N.eq_dec x y), (list_eq_dec N.eq_dec y x); congruence.
Qed.

Lemma py_eq_scalar (x y : pyval) :
  match x with PList _ | PTuple _ | PSub _ _ => False | _ => True end ->
  py_eq x y = scalar_eq x (base y).
Proof. destruct x; intros H; try contradiction H; reflexivity. Qed.

Lemma py_in_token (tok : string) (res : pyval) :
  py_in res [PBytes (b tok); PStr (t tok)] = is_token tok res.
Proof.
  unfold py_in, is_token. cbn [existsb].
  rewrite !py_eq_scalar by exact I.
  destruct (base res); cbn [scalar_eq]; rewrite ?orb_false_r;
    try reflexivity; first [apply bytes_eqb_sym | apply text_eqb_sym].
Qed.

(** C5: for every settled value, [wait_ok] returns the value itself when
    it equals the literal QUEUED in binary or text form, and otherwise the
    boolean that is true exactly when it equals the literal OK in binary or
    text form: QUEUED gives QUEUED, OK gives true, PONG gives false. *)
Theorem wait_ok_result :
  (forall res,
      wait_ok (Finished (Ok res))
      = Some (Ok (if is_token "QUEUED" res then res
                  else PBool (is_token "OK" res))))
  /\ wait_ok (Finished (Ok (PBytes (b "QUEUED")))) = Some (Ok (PBytes (b "QUEUED")))
  /\ wait_ok (Finished (Ok (PStr (t "QUEUED")))) = Some (Ok (PStr (t "QUEUED")))
  /\ wait_ok (Finished (Ok (PBytes (b "OK")))) = Some (Ok (PBool true))
  /\ wait_ok (Finished (Ok (PStr (t "OK")))) = Some (Ok (PBool true))
  /\ wait_ok (Finished (Ok (PBytes (b "PONG")))) = Some (Ok (PBool false))
  /\ wait_ok (Finished (Ok (PStr (t "PONG")))) = Some (Ok (PBool false)).
Proof.
  split; [|repeat split].
  intros res. unfold wait_ok, await, option_map, rbind, Ok, QUEUED, OK.
  rewrite !py_in_token. destruct (is_token "QUEUED" res); reflexivity.
Qed.

(** ** C7: settling a pending result *)

(** C7: for every value and every exception, [_set_result] and
    [_set_exception] assign it to a future that is not settled yet; on a
    cancelled future they do nothing and raise nothing; on a future settled
    otherwise they raise [AssertionError] and leave what the future holds
    as it is. *)
Theorem settle_once (r : pyval) (e : exn) (held : result pyval) :
  _set_result Pending r
  = {| fut_after := Finished (Ok r); logged := false; raised := None |}
  /\ _set_exception Pending e
     = {| fut_after := Finished (Err e); logged := false; raised := None |}
  /\ _set_result Cancelled r
     = {| fut_after := Cancelled; logged := true; raised := None |}
  /\ _set_exception Cancelled e
     = {| fut_after := Cancelled; logged := true; raised := None |}
  /\ _set_result (Finished held) r
     = {| fut_after := Finished held; logged := true;
          raised := Some (AssertionError wrong_state) |}
  /\ _set_exception (Finished held) e
     = {| fut_after := Finished held; logged := true;
          raised := Some (AssertionError wrong_state) |}.
Proof. repeat split. Qed.

(** ** C9: the cache of [_bytes_len] stays within its capacity *)

Lemma cache_after_snoc (history : list call) (k : call) :
  cache_after (history ++ [k]) = run_call (cache_after history) k.
Proof. unfold cache_after. rewrite fold_left_app. reflexivity. Qed.

Lemma bytes_len_front (n : Z) (c : Lru.cache) :
  coherent c ->
  hd_error (snd (_bytes_len n c)) = Some (n, PBytes (Dec.int_str n)).
Proof.
  intros H. unfold _bytes_len, Lru.call.
  destruct (Lru.lookup n c) as [v|] eqn:E.
  - apply (lookup_coherent c n v H) in E. subst v. reflexivity.
  - rewrite bytes_len_body_spec. reflexivity.
Qed.

Lemma bytes_len_evicts (n : Z) (c : Lru.cache) :
  Lru.lookup n c = None -> length c = maxsize ->
  snd (_bytes_len n c) = (n, PBytes (Dec.int_str n)) :: removelast c.
Proof.
  intros E Hfull. unfold _bytes_len, Lru.call.
  rewrite E, bytes_len_body_spec. unfold Ok. cbn [snd].
  rewrite Hfull, Nat.leb_refl. reflexivity.
Qed.

(** C9: after any sequence of calls of [encode_command] and [_bytes_len],
    on however many distinct integers, the cache of [_bytes_len] holds at
    most its capacity of 1024 entries; the integer formatted last is the
    first entry, and a miss on a full cache drops the entry used longest
    ago, the last one. *)
Theorem bytes_len_cache_bounded :
  maxsize = 1024%nat
  /\ (forall history, (length (cache_after history) <= maxsize)%nat)
  /\ (forall history n,
        hd_error (cache_after (history ++ [Call_bytes_len n]))
        = Some (n, PBytes (Dec.int_str n)))
  /\ (forall history n,
        Lru.lookup n (cache_after history) = None ->
        length (cache_after history) = maxsize ->
        cache_after (history ++ [Call_bytes_len n])
        = (n, PBytes (Dec.int_str n)) :: removelast (cache_after history)).
Proof.
  split; [reflexivity|]. split; [|split].
  - intros history.
    apply (preserves_history bounded bytes_len_bounded).
    unfold bounded. cbn [length]. apply Nat.le_0_l.
  - intros history n. rewrite cache_after_snoc.
    apply bytes_len_front, cache_after_coherent.
  - intros history n E Hfull. rewrite cache_after_snoc.
    apply bytes_len_evicts; assumption.
Qed.

(** ** C8: [decode] *)





Lemma rmap_Forall2 {A B} (f : A -> result B) (l : list A) (l' : list B) :
  rmap f l = Ok l' <-> Forall2 (fun a y => f a = Ok y) l l'.
Proof.
  revert l'. induction l as [|a l IH]; intros l'.
  - rewrite rmap_nil. split.
    + intros [= <-]. constructor.
    + intros H. inversion H. reflexivity.
  - rewrite rmap_cons. split.
    + destruct (f a) as [e|y] eqn:Ea; [discriminate|].
      destruct (rmap f l) as [e|r]; [discriminate|].
      intros [= <-]. constructor; [exact Ea | apply IH; reflexivity].
    + intros H. inversion H as [|a0 y l0 r Ha Hl]; subst.
      rewrite Ha. apply IH in Hl. rewrite Hl. reflexivity.
Qed.






(** ** The cache is transparent *)

Lemma encodable_or_not (args : list pyval) :
  (exists encs, Forall2 encodes_as args encs)
  \/ Exists (fun a => canonical a = None) args.
Proof.
  induction args as [|a args [[encs IH]|IH]].
  - left. exists []. constructor.
  - destruct (canonical a) as [bs|] eqn:E.
    + left. exists (bs :: encs). constructor; assumption.
    + right. apply Exists_cons_hd. exact E.
  - right. apply Exists_cons_tl. exact IH.
Qed.

(** Whatever calls came before, [encode_command] returns, or raises, what
    it does in a fresh process. *)
Lemma encode_command_any_history (history : list call) (args : list pyval) :
  fst (encode_command args (cache_after history)) = encode_command0 args.
Proof.
  unfold encode_command0.
  destruct (encodable_or_not args) as [[encs H]|H].
  - rewrite (encode_command_ok args encs (cache_after history)
               (cache_after_coherent history) H).
    symmetry. apply encode_command_ok; [constructor | exact H].
  - destruct (first_unencodable args H) as (pre & encs & v & post & -> & Hpre & Hv).
    rewrite (encode_command_err pre encs v post (cache_after history)
               (cache_after_coherent history) Hpre Hv).
    symmetry.
    apply (encode_command_err pre encs v post []);
      [constructor | exact Hpre | exact Hv].
Qed.

(** * Further properties *)

(** ** The cache of [_bytes_len]: transparent, and without repeated keys *)

(** X1: memoisation is invisible.  After any calls of [encode_command] and
    [_bytes_len], [_bytes_len] returns the decimal text of its argument,
    and [encode_command] returns, or raises, what it does in a fresh
    process. *)
Theorem cache_is_transparent (history : list call) :
  (forall n,
      fst (_bytes_len n (cache_after history)) = Ok (PBytes (Dec.int_str n)))
  /\ (forall args,
        fst (encode_command args (cache_after history)) = encode_command0 args).
Proof.
  split.
  - intros n. apply bytes_len_spec, cache_after_coherent.
  - intros args. apply encode_command_any_history.
Qed.

Lemma remove_keys_subset (key k : Z) (c : Lru.cache) :
  In k (cache_keys (Lru.remove key c)) -> In k (cache_keys c).
Proof.
  unfold cache_keys. induction c as [|[k0 v0] c IH]; [intros []|].
  cbn [Lru.remove]. destruct (k0 =? key).
  - intros H. right. exact H.
  - cbn [map fst In]. intros [H|H]; [left; exact H | right; apply IH, H].
Qed.

Lemma remove_distinct (key : Z) (c : Lru.cache) :
  distinct_keys c ->
  distinct_keys (Lru.remove key c) /\ ~ In key (cache_keys (Lru.remove key c)).
Proof.
  unfold distinct_keys, cache_keys.
  induction c as [|[k0 v0] c IH]; intros Hnd.
  - split; [constructor | intros []].
  - cbn [map fst] in Hnd. inversion Hnd as [|x l Hnotin Hnd']; subst.
    cbn [Lru.remove]. destruct (Z.eqb_spec k0 key) as [->|Hne].
    + split; assumption.
    + destruct (IH Hnd') as [IH1 IH2]. cbn [map fst]. split.
      * constructor; [|exact IH1].
        intros Hin. apply Hnotin. apply (remove_keys_subset key). exact Hin.
      * intros [H|H]; [congruence | exact (IH2 H)].
Qed.

Lemma lookup_none_not_in (key : Z) (c : Lru.cache) :
  Lru.lookup key c = None -> ~ In key (cache_keys c).
Proof.
  unfold cache_keys. induction c as [|[k0 v0] c IH]; [intros _ []|].
  cbn [Lru.lookup]. destruct (Z.eqb_spec k0 key) as [->|Hne]; [discriminate|].
  intros H [Hin|Hin]; [exact (Hne Hin) | exact (IH H Hin)].
Qed.

Lemma removelast_keys_subset (k : Z) (c : Lru.cache) :
  In k (cache_keys (removelast c)) -> In k (cache_keys c).
Proof.
  unfold cache_keys. induction c as [|kv c IH]; [intros []|].
  destruct c as [|kv' c]; [intros []|].
  change (removelast (kv :: kv' :: c)) with (kv :: removelast (kv' :: c)).
  cbn [map In]. intros [H|H]; [left; exact H | right; apply IH, H].
Qed.

Lemma removelast_distinct (c : Lru.cache) :
  distinct_keys c -> distinct_keys (removelast c).
Proof.
  unfold distinct_keys, cache_keys. induction c as [|kv c IH]; intros Hnd.
  - constructor.
  - destruct c as [|kv' c]; [constructor|].
    change (removelast (kv :: kv' :: c)) with (kv :: removelast (kv' :: c)).
    cbn [map] in Hnd |- *. inversion Hnd as [|x l Hnotin Hnd']; subst.
    constructor; [|apply IH, Hnd'].
    intros Hin. apply Hnotin.
    exact (removelast_keys_subset (fst kv) (kv' :: c) Hin).
Qed.

Lemma bytes_len_distinct (n : Z) : preserves distinct_keys (_bytes_len n).
Proof.
  intros c Hnd. unfold _bytes_len, Lru.call.
  destruct (Lru.lookup n c) as [v|] eqn:E.
  - cbn [snd]. destruct (remove_distinct n c Hnd) as [H1 H2].
    unfold distinct_keys, cache_keys in *. cbn [map fst]. constructor; assumption.
  - rewrite bytes_len_body_spec. unfold Ok. cbn [snd].
    pose proof (lookup_none_not_in n c E) as Hnotin.
    unfold distinct_keys, cache_keys in *. cbn [map fst].
    destruct (maxsize <=? length c)%nat.
    + constructor; [|apply removelast_distinct, Hnd].
      intros Hin. apply Hnotin. apply removelast_keys_subset. exact Hin.
    + constructor; assumption.
Qed.

(** X4: the cache never holds an integer twice.  After any calls, the keys
    of the cache of [_bytes_len] are pairwise distinct: a hit moves the
    entry, it does not add one. *)
Theorem cache_keys_distinct (history : list call) :
  NoDup (cache_keys (cache_after history)).
Proof.
  apply (preserves_history distinct_keys bytes_len_distinct). constructor.
Qed.

(** ** The buffer and the encodings of the arguments *)

Lemma encode_command0_ok (args : list pyval) (encs : list bytes) :
  Forall2 encodes_as args encs ->
  encode_command0 args = Ok (PByteArray (wire encs)).
Proof.
  intros H. apply (encode_command_ok args encs []); [constructor | exact H].
Qed.

Lemma wire_injective (encs1 encs2 : list bytes) :
  wire encs1 = wire encs2 -> encs1 = encs2.
Proof.
  intros H. pose proof (parse_wire encs1) as H1. rewrite H in H1.
  rewrite parse_wire in H1. congruence.
Qed.

Lemma int_digits_encode (z : Z) :
  encodes_as (PStr (map Byte.to_N (Dec.int_str z))) (Dec.int_str z).
Proof.
  unfold encodes_as. cbn [canonical].
  rewrite (utf8_encode_ascii _ (int_str_ascii z)). reflexivity.
Qed.

(** X2: the buffer is the canonical encodings, no more and no less.  Two
    argument lists that can be encoded give the same buffer exactly when
    their canonical encodings are the same, argument by argument; the kind
    of an argument leaves no trace, so an integer, its decimal text and the
    blob of that text give one and the same command. *)
Theorem same_buffer_iff_same_encodings :
  (forall args1 args2 encs1 encs2,
      Forall2 encodes_as args1 encs1 -> Forall2 encodes_as args2 encs2 ->
      (encode_command0 args1 = encode_command0 args2 <-> encs1 = encs2))
  /\ (forall z,
        encode_command0 [PInt z] = encode_command0 [PBytes (Dec.int_str z)]
        /\ encode_command0 [PInt z]
           = encode_command0 [PStr (map Byte.to_N (Dec.int_str z))]).
Proof.
  split.
  - intros args1 args2 encs1 encs2 H1 H2.
    rewrite (encode_command0_ok args1 encs1 H1), (encode_command0_ok args2 encs2 H2).
    split.
    + intros H. unfold Ok in H. apply wire_injective. congruence.
    + intros ->. reflexivity.
  - intros z.
    rewrite (encode_command0_ok [PInt z] [Dec.int_str z])
      by (repeat constructor).
    rewrite (encode_command0_ok [PBytes (Dec.int_str z)] [Dec.int_str z])
      by (repeat constructor).
    rewrite (encode_command0_ok [PStr (map Byte.to_N (Dec.int_str z))]
               [Dec.int_str z])
      by (constructor; [apply int_digits_encode | constructor]).
    split; reflexivity.
Qed.

Lemma same_buffer_iff_same_encodings_witness :
  encode_command0 [PStr (t "GET"); PInt 10]
  = encode_command0 [PBytes (b "GET"); PStr (t "10")]
  <-> [b "GET"; b "10"] = [b "GET"; b "10"].
Proof.
  apply (proj1 same_buffer_iff_same_encodings
           [PStr (t "GET"); PInt 10] [PBytes (b "GET"); PStr (t "10")]);
    repeat constructor.
Defined.

Lemma read_command_wire (encs : list bytes) (rest : bytes) :
  read_command (wire encs ++ rest) = Some (encs, rest).
Proof.
  unfold wire. change (b "*") with [x2a]. cbn [app]. unfold read_command.
  rewrite <- !app_assoc. rewrite read_len_int_str.
  apply read_bulks_bulks.
Qed.

(** X3: a buffer delimits itself.  Whatever bytes follow the buffer of a
    command on a connection (the next commands of a pipeline), reading one
    command off the front gives back the canonical encodings of the
    arguments and leaves exactly the bytes that followed. *)
Theorem buffer_is_self_delimiting (args : list pyval) (encs : list bytes)
    (rest : bytes) :
  Forall2 encodes_as args encs ->
  exists buf,
    encode_command0 args = Ok (PByteArray buf)
    /\ read_command (buf ++ rest) = Some (encs, rest).
Proof.
  intros H. exists (wire encs).
  split; [apply encode_command0_ok, H | apply read_command_wire].
Qed.

Lemma buffer_is_self_delimiting_witness :
  exists buf,
    encode_command0 [PStr (t "INCR"); PStr (t "n")] = Ok (PByteArray buf)
    /\ read_command (buf ++ wire [b "PING"])
       = Some ([b "INCR"; b "n"], wire [b "PING"]).
Proof.
  apply (buffer_is_self_delimiting [PStr (t "INCR"); PStr (t "n")]
           [b "INCR"; b "n"] (wire [b "PING"])).
  repeat constructor.
Defined.

(** ** [decode]: when it raises, and what it returns *)

Lemma first_error_app (enc : encoding) (xs ys : list bytes) :
  first_error enc (xs ++ ys)
  = match first_error enc xs with
    | Some e => Some e
    | None => first_error enc ys
    end.
Proof.
  induction xs as [|bs xs IH]; [reflexivity|].
  cbn [app first_error]. destruct (enc bs); [reflexivity | exact IH].
Qed.

Lemma decode_by_first_error (enc : encoding) (obj : pyval) :
  match first_error enc (blobs obj) with
  | Some e => decode enc obj = Err e
  | None => exists r, decode enc obj = Ok r
  end.
Proof.
  induction obj as [| | | |bs| | |l IH|l _| |cls v IH] using pyval_nested_ind;
    try (cbn [blobs first_error decode]; eexists; reflexivity).
  - cbn [blobs first_error decode]. unfold rbind.
    destruct (enc bs) as [e|s]; [reflexivity | eexists; reflexivity].
  - cbn [blobs decode]. unfold rbind.
    assert (H : match first_error enc (flat_map blobs l) with
                | Some e => rmap (decode enc) l = Err e
                | None => exists l', rmap (decode enc) l = Ok l'
                end).
    { induction IH as [|o l Ho _ IHl]; [exists []; reflexivity|].
      cbn [flat_map]. rewrite first_error_app, rmap_cons.
      destruct (first_error enc (blobs o)) as [e|].
      - rewrite Ho. reflexivity.
      - destruct Ho as [y ->]. unfold Ok.
        destruct (first_error enc (flat_map blobs l)) as [e|].
        + rewrite IHl. reflexivity.
        + destruct IHl as [l' ->]. eexists. reflexivity. }
    destruct (first_error enc (flat_map blobs l)) as [e|].
    + rewrite H. reflexivity.
    + destruct H as [l' ->]. eexists. reflexivity.
  - cbn [blobs decode].
    destruct (isinstance v TBytes || isinstance v TList);
      [exact IH | eexists; reflexivity].
Qed.

(** X5: [decode] raises exactly when a blob of the reply does not decode,
    and what it raises is the exception of the first such blob in reading
    order; blobs after it play no part.  With no such blob it returns a
    value. *)
Theorem decode_raises_first_error (enc : encoding) (obj : pyval) :
  (forall e, first_error enc (blobs obj) = Some e -> decode enc obj = Err e)
  /\ (first_error enc (blobs obj) = None -> exists r, decode enc obj = Ok r)
  /\ (forall e, decode enc obj = Err e -> first_error enc (blobs obj) = Some e).
Proof.
  pose proof (decode_by_first_error enc obj) as H.
  destruct (first_error enc (blobs obj)) as [e0|].
  - split; [|split].
    + intros e [= <-]. exact H.
    + discriminate.
    + intros e He. rewrite H in He. unfold Err in He. congruence.
  - destruct H as [r Hr]. split; [|split].
    + discriminate.
    + intros _. exists r. exact Hr.
    + intros e He. rewrite Hr in He. discriminate He.
Qed.

Lemma decode_raises_first_error_witness :
  decode ascii_codec
    (PList [PBytes (b "a"); PList [PBytes [xe9]; PBytes [xff]]; PBytes [xfe]])
  = Err (UnicodeDecodeError [xe9]).
Proof.
  apply (proj1 (decode_raises_first_error ascii_codec
                  (PList [PBytes (b "a"); PList [PBytes [xe9]; PBytes [xff]];
                          PBytes [xfe]]))).
  reflexivity.
Defined.

Lemma decoded_stable_items (enc enc' : encoding) (l l' : list pyval) :
  Forall (fun o => forall r, decode enc o = Ok r ->
                             blobs r = [] /\ decode enc' r = Ok r) l ->
  Forall2 (fun o o' => decode enc o = Ok o') l l' ->
  flat_map blobs l' = [] /\ rmap (decode enc') l' = Ok l'.
Proof.
  intros IH H. induction H as [|o o' l l' Ho _ IHl].
  - split; reflexivity.
  - inversion IH as [|x xs Hx Hxs]; subst.
    destruct (Hx o' Ho) as [Hb Hd]. destruct (IHl Hxs) as [Hbl Hdl].
    split.
    + cbn [flat_map]. rewrite Hb, Hbl. reflexivity.
    + rewrite rmap_cons, Hd. unfold Ok. rewrite Hdl. reflexivity.
Qed.

Lemma decoded_stable (enc enc' : encoding) (obj : pyval) :
  forall r, decode enc obj = Ok r -> blobs r = [] /\ decode enc' r = Ok r.
Proof.
  induction obj as [| | | |bs| | |l IH|l _| |cls v IH] using pyval_nested_ind;
    intros r Hr;
    try (cbn [decode] in Hr; unfold Ok in Hr; injection Hr as <-;
         split; reflexivity).
  - cbn [decode] in Hr. unfold rbind in Hr.
    destruct (enc bs) as [e|s]; [discriminate Hr|].
    unfold Ok in Hr. injection Hr as <-. split; reflexivity.
  - cbn [decode] in Hr. unfold rbind in Hr.
    destruct (rmap (decode enc) l) as [e|l'] eqn:E; [discriminate Hr|].
    unfold Ok in Hr. injection Hr as <-.
    apply rmap_Forall2 in E.
    destruct (decoded_stable_items enc enc' l l' IH E) as [Hb Hd].
    split; [exact Hb|]. cbn [decode]. rewrite Hd. reflexivity.
  - cbn [decode] in Hr.
    destruct (isinstance v TBytes || isinstance v TList) eqn:Hi;
      [exact (IH r Hr)|].
    unfold Ok in Hr. injection Hr as <-.
    cbn [blobs decode]. rewrite Hi. split; reflexivity.
Qed.

(** X6: in a decoded reply no blob is left where [decode] looks (the items
    of lists, at any depth), so decoding it again, with the same or with
    any other encoding, returns it unchanged. *)
Theorem decode_is_idempotent (enc enc' : encoding) (obj r : pyval) :
  decode enc obj = Ok r -> blobs r = [] /\ decode enc' r = Ok r.
Proof. apply decoded_stable. Qed.

Lemma decode_is_idempotent_witness :
  blobs (PList [PStr [233%N]; PSub "Row" (PTuple [PBytes (b "kept")]); PInt 7])
  = []
  /\ decode ascii_codec
       (PList [PStr [233%N]; PSub "Row" (PTuple [PBytes (b "kept")]); PInt 7])
     = Ok (PList [PStr [233%N]; PSub "Row" (PTuple [PBytes (b "kept")]); PInt 7]).
Proof.
  apply (decode_is_idempotent latin_1 ascii_codec
           (PList [PBytes [xe9]; PSub "Row" (PTuple [PBytes (b "kept")]);
                   PInt 7])).
  reflexivity.
Defined.

(** ** The adapters *)

(** X7: the three adapters treat the inner result alike.  While it is
    pending they return nothing; its exception, or its cancellation, is
    raised unchanged; a settled QUEUED, binary or text, is returned as it
    is, and [wait_convert] does not apply the conversion to it.  On any
    other value [wait_convert] returns, or raises, exactly what the
    conversion does, and [wait_ok] is [wait_convert] with the OK test as
    the conversion. *)
Theorem adapters_agree (type_ : pyval -> result pyval) :
  (wait_ok Pending = None /\ wait_convert Pending type_ = None
   /\ wait_make_dict Pending = None)
  /\ (wait_ok Cancelled = Some (Err CancelledError)
      /\ wait_convert Cancelled type_ = Some (Err CancelledError)
      /\ wait_make_dict Cancelled = Some (Err CancelledError))
  /\ (forall e,
        wait_ok (Finished (Err e)) = Some (Err e)
        /\ wait_convert (Finished (Err e)) type_ = Some (Err e)
        /\ wait_make_dict (Finished (Err e)) = Some (Err e))
  /\ (forall res,
        wait_convert (Finished (Ok res)) type_
        = Some (if is_token "QUEUED" res then Ok res else type_ res)
        /\ (is_token "QUEUED" res = true ->
            wait_ok (Finished (Ok res)) = Some (Ok res)
            /\ wait_make_dict (Finished (Ok res)) = Some (Ok (Unchanged res))))
  /\ (forall fut,
        wait_ok fut
        = wait_convert fut (fun res => Ok (PBool (is_token "OK" res)))).
Proof.
  split; [repeat split|]. split; [repeat split|]. split; [repeat split|].
  split.
  - intros res.
    unfold wait_convert, wait_ok, wait_make_dict, await, option_map, rbind, Ok,
      QUEUED.
    rewrite !py_in_token. split; [reflexivity|].
    intros ->. split; reflexivity.
  - intros [| |[e|res]]; try reflexivity.
    unfold wait_convert, wait_ok, await, option_map, rbind, Ok, QUEUED, OK.
    rewrite !py_in_token. reflexivity.
Qed.

Lemma adapters_agree_witness :
  wait_ok (Finished (Ok (PByteArray (b "QUEUED"))))
  = Some (Ok (PByteArray (b "QUEUED")))
  /\ wait_make_dict (Finished (Ok (PByteArray (b "QUEUED"))))
     = Some (Ok (Unchanged (PByteArray (b "QUEUED")))).
Proof.
  apply (proj2 (proj1 (proj2 (proj2 (proj2
           (adapters_agree (fun _ => Err IndexError)))))
           (PByteArray (b "QUEUED")))).
  reflexivity.
Defined.



Lemma dict_fold_hashable (pairs : list (pyval * pyval)) :
  hashable_keys pairs ->
  forall d0,
    exists d,
      fold_left
        (fun acc kv => (d <- acc ;; dict_setitem d (fst kv) (snd kv))%result)
        pairs (Ok d0)
      = Ok d.
Proof.
  induction 1 as [|[k v] pairs Hk _ IH]; intros d0.
  - exists d0. reflexivity.
  - cbn [fold_left fst snd rbind Ok]. unfold rbind, Ok, dict_setitem.
    cbn [fst] in Hk. rewrite Hk. apply IH.
Qed.


Lemma dict_of_hashable (pairs : list (pyval * pyval)) :
  hashable_keys pairs -> exists d, dict_of pairs = Ok d.
Proof. intros H. apply (dict_fold_hashable pairs H []). Qed.







(** ** [coerced_keys_dict]: the read path *)

(** X10: membership agrees with lookup.  For every mapping and every key,
    [key in d] is true exactly when [d[key]] returns a value; it is false
    exactly when [d[key]] raises the [KeyError] of the dict on the coerced
    key; and it raises exactly the exception [d[key]] raises in every other
    case (no converter for the key, a text UTF-8 refuses, an unhashable
    key). *)
Theorem contains_agrees_with_getitem (self : pydict) (other : pyval) :
  (coerced_keys_dict.__contains__ self other = Ok true
   <-> exists v, coerced_keys_dict.__getitem__ self other = Ok v)
  /\ (coerced_keys_dict.__contains__ self other = Ok false
      <-> exists key,
            coerced_keys_dict.coerce other = Ok key
            /\ hashable key = true
            /\ coerced_keys_dict.__getitem__ self other = Err (KeyError key))
  /\ (forall e,
        coerced_keys_dict.__contains__ self other = Err e ->
        coerced_keys_dict.__getitem__ self other = Err e).
Proof.
  unfold coerced_keys_dict.__contains__, coerced_keys_dict.__getitem__, rbind.
  destruct (coerced_keys_dict.coerce other) as [e0|key].
  - split; [|split].
    + split; [discriminate | intros [v H]; discriminate H].
    + split; [discriminate | intros (k & H & _); discriminate H].
    + intros e H. unfold Err in *. injection H as ->. reflexivity.
  - unfold dict_contains, dict_getitem, unhashable.
    destruct (hashable key) eqn:Hh.
    + destruct (dict_lookup self key) as [v|].
      * split; [|split].
        -- split; [intros _; exists v; reflexivity | reflexivity].
        -- split; [discriminate | intros (k & _ & _ & H); discriminate H].
        -- intros e H. discriminate H.
      * split; [|split].
        -- split; [discriminate | intros [v H]; discriminate H].
        -- split; [intros _; exists key; repeat split; assumption | reflexivity].
        -- intros e H. discriminate H.
    + split; [|split].
      * split; [discriminate | intros [v H]; discriminate H].
      * split; [discriminate|].
        intros (k & Hk & Hhk & _). unfold Ok in Hk. injection Hk as <-.
        congruence.
      * intros e H. unfold Err in *. injection H as ->. reflexivity.
Qed.

Lemma contains_agrees_with_getitem_witness :
  coerced_keys_dict.__getitem__ [(PBytes (b "7"), PNone)] (PStr [57343%N])
  = Err (UnicodeEncodeError 57343%N).
Proof.
  apply (proj2 (proj2 (contains_agrees_with_getitem
                         [(PBytes (b "7"), PNone)] (PStr [57343%N])))).
  reflexivity.
Defined.

Lemma py_eq_blob_only (k : pyval) (bs : bytes) :
  bytes_like k = false -> py_eq k (PBytes bs) = false.
Proof.
  induction k as [| | | |x| | |l _|l _| |cls k IH] using pyval_nested_ind;
    intros H; try reflexivity; try discriminate H.
  exact (IH H).
Qed.

Lemma dict_lookup_no_blob (self : pydict) (bs : bytes) :
  Forall (fun kv => bytes_like (fst kv) = false) self ->
  dict_lookup self (PBytes bs) = None.
Proof.
  induction 1 as [|[k v] self Hk _ IH]; [reflexivity|].
  cbn [dict_lookup]. cbn [fst] in Hk. rewrite (py_eq_blob_only k bs Hk).
  exact IH.
Qed.

Lemma coerced_absent (self : pydict) (key : pyval) (bs : bytes) :
  coerced_kind key = true -> canonical key = Some bs ->
  dict_lookup self (PBytes bs) = None ->
  coerced_keys_dict.__getitem__ self key = Err (KeyError (PBytes bs))
  /\ coerced_keys_dict.__contains__ self key = Ok false.
Proof.
  intros Hk Hcan Habs.
  unfold coerced_keys_dict.__getitem__, coerced_keys_dict.__contains__.
  rewrite (coerce_canonical key bs Hk Hcan).
  unfold rbind, Ok, dict_getitem, dict_contains. cbn [hashable].
  rewrite Habs. split; reflexivity.
Qed.

(** X11: what a lookup raises, kind by kind.  A text, integer, float or
    blob key that is absent raises [KeyError] on the blob the key is
    coerced to (not on the key as given), and is no member; a [bytearray]
    key, though it has a converter, raises the [TypeError] of an unhashable
    key; a text that UTF-8 cannot encode raises [UnicodeEncodeError], not
    the [TypeError] of [encode_command]. *)
Theorem lookup_errors_by_kind (self : pydict) :
  (forall key bs,
      coerced_kind key = true -> canonical key = Some bs ->
      dict_lookup self (PBytes bs) = None ->
      coerced_keys_dict.__getitem__ self key = Err (KeyError (PBytes bs))
      /\ coerced_keys_dict.__contains__ self key = Ok false)
  /\ (forall bs,
        coerced_keys_dict.__getitem__ self (PByteArray bs)
        = Err (TypeError_unhashable TByteArray)
        /\ coerced_keys_dict.__contains__ self (PByteArray bs)
           = Err (TypeError_unhashable TByteArray))
  /\ (forall s c,
        Utf8.encode s = inl c ->
        coerced_keys_dict.__getitem__ self (PStr s) = Err (UnicodeEncodeError c)
        /\ coerced_keys_dict.__contains__ self (PStr s)
           = Err (UnicodeEncodeError c)).
Proof.
  split; [intros key bs; apply coerced_absent|]. split.
  - intros bs. split; reflexivity.
  - intros s c Hs.
    unfold coerced_keys_dict.__getitem__, coerced_keys_dict.__contains__.
    rewrite coerce_not_bytes by reflexivity. rewrite convert_spec, Hs.
    split; reflexivity.
Qed.

Lemma lookup_errors_by_kind_witness :
  (coerced_keys_dict.__getitem__ [(PBytes (b "x"), PInt 1)] (PFloat f3_14)
   = Err (KeyError (PBytes (b "3.14")))
   /\ coerced_keys_dict.__contains__ [(PBytes (b "x"), PInt 1)] (PFloat f3_14)
      = Ok false)
  /\ (coerced_keys_dict.__getitem__ [(PBytes (b "x"), PInt 1)] lone_surrogate
      = Err (UnicodeEncodeError 55296%N)
      /\ coerced_keys_dict.__contains__ [(PBytes (b "x"), PInt 1)] lone_surrogate
         = Err (UnicodeEncodeError 55296%N)).
Proof.
  split.
  - apply (proj1 (lookup_errors_by_kind [(PBytes (b "x"), PInt 1)])
             (PFloat f3_14) (b "3.14")); reflexivity.
  - apply (proj2 (proj2 (lookup_errors_by_kind [(PBytes (b "x"), PInt 1)]))
             [55296%N] 55296%N). reflexivity.
Defined.

(** X12: the mapping coerces on reads only.  An entry stored under a key
    that is not a blob (a text, an integer, a float) is found by no lookup
    with a text, integer, float or blob key, not even with the very key it
    was stored under: the lookup goes by the coerced blob, and no such key
    is stored. *)
Theorem non_blob_keys_are_unreachable (self : pydict) (key : pyval) (bs : bytes) :
  Forall (fun kv => bytes_like (fst kv) = false) self ->
  coerced_kind key = true -> canonical key = Some bs ->
  coerced_keys_dict.__getitem__ self key = Err (KeyError (PBytes bs))
  /\ coerced_keys_dict.__contains__ self key = Ok false.
Proof.
  intros Hself Hk Hcan.
  apply coerced_absent; [exact Hk | exact Hcan |].
  apply dict_lookup_no_blob, Hself.
Qed.

Lemma non_blob_keys_are_unreachable_witness :
  dict_setitem [] (PStr (t "x")) (PInt 1) = Ok [(PStr (t "x"), PInt 1)]
  /\ coerced_keys_dict.__getitem__ [(PStr (t "x"), PInt 1)] (PStr (t "x"))
     = Err (KeyError (PBytes (b "x")))
  /\ coerced_keys_dict.__contains__ [(PStr (t "x"), PInt 1)] (PStr (t "x"))
     = Ok false.
Proof.
  split; [reflexivity|].
  apply (non_blob_keys_are_unreachable [(PStr (t "x"), PInt 1)]
           (PStr (t "x")) (b "x")).
  - repeat constructor.
  - reflexivity.
  - reflexivity.
Defined.

(** ** The scan iterators: the cursors they pass, the items they yield *)

Section Recording.

Variable regroup : list pyval -> list pyval.

Lemma anext_recording (script : list page) :
  forall (cur : pyval) (buf : list pyval) (fuel : nat) (log : list pyval),
    driven cur script -> (length script <= fuel)%nat ->
    match to_come regroup buf script with
    | [] =>
        exists it',
          anext_with _ recording regroup fuel (script, log)
            {| _cur := cur; _ret := buf |}
          = Some (([], log ++ calls cur script), it', Err StopAsyncIteration)
    | x :: xs =>
        exists s' log' it',
          anext_with _ recording regroup fuel (script, log)
            {| _cur := cur; _ret := buf |}
          = Some ((s', log'), it', Ok x)
          /\ driven (_cur it') s'
          /\ to_come regroup (_ret it') s' = xs
          /\ (length s' <= length script)%nat
          /\ log' ++ calls (_cur it') s' = log ++ calls cur script
    end.
Proof.
  induction script as [|[cur' p] script IH]; intros cur buf fuel log Hd Hfuel.
  - destruct buf as [|x rest]; unfold to_come; cbn [map concat app calls].
    + exists {| _cur := cur; _ret := [] |}.
      rewrite app_nil_r. apply anext_exhausted. exact Hd.
    + exists [], log, {| _cur := cur; _ret := rest |}.
      rewrite anext_buffered.
      split; [reflexivity|]. split; [exact Hd|]. split; [reflexivity|].
      split; [apply le_n | reflexivity].
  - destruct buf as [|x rest].
    + destruct Hd as [Hcur Hd].
      destruct fuel as [|fuel]; [cbn [length] in Hfuel; lia|].
      assert (Hfuel' : (length script <= fuel)%nat)
        by (cbn [length] in Hfuel; lia).
      rewrite (anext_fetches _ _ _ _ _ _ Hcur).
      cbn [recording fst snd].
      specialize (IH cur' (regroup p) fuel (log ++ [cur]) Hd Hfuel').
      change (to_come regroup [] ((cur', p) :: script))
        with (to_come regroup (regroup p) script).
      cbn [calls].
      replace (log ++ cur :: calls cur' script)
        with ((log ++ [cur]) ++ calls cur' script)
        by (rewrite <- app_assoc; reflexivity).
      destruct (to_come regroup (regroup p) script) as [|y ys].
      * exact IH.
      * destruct IH as (s' & log' & it' & H1 & H2 & H3 & H4 & H5).
        exists s', log', it'.
        split; [exact H1|]. split; [exact H2|]. split; [exact H3|].
        split; [cbn [length]; lia | exact H5].
    + exists ((cur', p) :: script), log, {| _cur := cur; _ret := rest |}.
      rewrite anext_buffered. unfold to_come. cbn [app].
      split; [reflexivity|]. split; [exact Hd|]. split; [reflexivity|].
      split; [apply le_n | reflexivity].
Qed.

Lemma run_recording (items : list pyval) :
  forall (script : list page) (cur : pyval) (buf : list pyval) (fuel n : nat)
         (log : list pyval),
    driven cur script -> to_come regroup buf script = items ->
    (length script <= fuel)%nat -> (length items < n)%nat ->
    run_to_end (anext_with _ recording regroup) fuel n (script, log)
      {| _cur := cur; _ret := buf |}
    = (items, Some (Ok tt), ([], log ++ calls cur script)).
Proof.
  induction items as [|x xs IH];
    intros script cur buf fuel n log Hd Hitems Hfuel Hn;
    (destruct n as [|n]; [cbn [length] in Hn; lia|]);
    pose proof (anext_recording script cur buf fuel log Hd Hfuel) as Hstep;
    rewrite Hitems in Hstep; cbn [run_to_end].
  - destruct Hstep as (it' & ->). reflexivity.
  - destruct Hstep as (s' & log' & it' & -> & Hd' & Hitems' & Hlen & Hlog).
    destruct it' as [cur' buf']. cbn [_cur _ret] in Hd', Hitems', Hlog.
    rewrite (IH s' cur' buf' fuel n log' Hd' Hitems');
      [rewrite Hlog; reflexivity | lia | cbn [length] in Hn; lia].
Qed.

End Recording.

Lemma calls_closed_form (script : list page) :
  forall cur, script <> [] -> calls cur script = cur :: map fst (removelast script).
Proof.
  induction script as [|[cur' p] script IH]; intros cur Hne; [congruence|].
  destruct script as [|q script]; [reflexivity|].
  change (removelast ((cur', p) :: q :: script))
    with ((cur', p) :: removelast (q :: script)).
  change (calls cur ((cur', p) :: q :: script))
    with (cur :: calls cur' (q :: script)).
  rewrite IH by discriminate. reflexivity.
Qed.

(** X13: the cursor is threaded through the calls.  Run to its end against
    a primitive that answers page after page (the last cursor falsy, the
    others truthy), either iterator calls the primitive once for each page
    and no more: first with the initial cursor [b"0"], then each time with
    the cursor the call before returned; pages without items are fetched
    through in the same [__anext__]. *)
Theorem cursor_is_threaded (script : list page) (fuel n : nat) :
  driven (_cur init) script -> (length script <= fuel)%nat ->
  ((length (to_come (fun ret => ret) [] script) < n)%nat ->
   run_to_end (ScanIter_anext _ recording) fuel n (script, []) init
   = (concat (map snd script), Some (Ok tt),
      ([], PBytes (b "0") :: map fst (removelast script))))
  /\ ((length (to_come (fun ret => zip_tuples (evens ret) (odds ret)) []
                 script) < n)%nat ->
      run_to_end (ScanIterPairs_anext _ recording) fuel n (script, []) init
      = (to_come (fun ret => zip_tuples (evens ret) (odds ret)) [] script,
         Some (Ok tt),
         ([], PBytes (b "0") :: map fst (removelast script)))).
Proof.
  intros Hd Hfuel.
  assert (Hne : script <> []).
  { destruct script; [cbn in Hd; discriminate Hd | discriminate]. }
  pose proof (calls_closed_form script (PBytes (b "0")) Hne) as Hcalls.
  split; intros Hn.
  - unfold ScanIter_anext, init.
    rewrite (run_recording (fun ret => ret) _ script (PBytes (b "0")) [] fuel n
               [] Hd eq_refl Hfuel Hn).
    cbn [app]. rewrite Hcalls. reflexivity.
  - unfold ScanIterPairs_anext, init.
    rewrite (run_recording _ _ script (PBytes (b "0")) [] fuel n [] Hd eq_refl
               Hfuel Hn).
    cbn [app]. rewrite Hcalls. reflexivity.
Qed.

Lemma cursor_is_threaded_witness :
  run_to_end (ScanIter_anext _ recording) 3 4
    ([(PInt 17, [key_a]); (PInt 4, []); (PInt 0, [key_b])], []) init
  = ([key_a; key_b], Some (Ok tt), ([], [PBytes (b "0"); PInt 17; PInt 4])).
Proof.
  apply (proj1 (cursor_is_threaded
                  [(PInt 17, [key_a]); (PInt 4, []); (PInt 0, [key_b])]
                  3%nat 4%nat ltac:(repeat split) (le_n 3))).
  repeat constructor.
Defined.

Lemma zip_tuples_all_pairs (xs ys : list pyval) : all_pairs (zip_tuples xs ys).
Proof.
  unfold all_pairs, zip_tuples.
  induction (combine xs ys) as [|kv l IH]; constructor; [reflexivity | exact IH].
Qed.

Section PairsOnly.

Variable St : Type.
Variable scan : scan_fn St.

Lemma fetch_all_pairs (fuel : nat) :
  forall s it s' it' r,
    all_pairs (_ret it) ->
    fetch St scan (fun ret => zip_tuples (evens ret) (odds ret)) fuel s it
    = Some (s', it', r) ->
    all_pairs (_ret it').
Proof.
  induction fuel as [|fuel IH]; intros s it s' it' r Hit H; cbn [fetch] in H;
    destruct (negb (nonempty (_ret it)) && truthy (_cur it)).
  - discriminate H.
  - injection H as <- <- <-. exact Hit.
  - destruct (scan s (_cur it)) as [s1 [e|[cur ret]]].
    + injection H as <- <- <-. exact Hit.
    + exact (IH s1 {| _cur := cur; _ret := zip_tuples (evens ret) (odds ret) |}
               s' it' r (zip_tuples_all_pairs _ _) H).
  - injection H as <- <- <-. exact Hit.
Qed.

Lemma anext_all_pairs (fuel : nat) (s : St) (it : iter) (s' : St) (it' : iter)
    (r : result pyval) :
  all_pairs (_ret it) ->
  ScanIterPairs_anext St scan fuel s it = Some (s', it', r) ->
  all_pairs (_ret it') /\ forall x, r = Ok x -> is_pair x = true.
Proof.
  intros Hit H. unfold ScanIterPairs_anext, anext_with in H.
  destruct (fetch St scan _ fuel s it) as [[[s1 it1] [e|u]]|] eqn:E;
    [| |discriminate H].
  - injection H as <- <- <-.
    split; [exact (fetch_all_pairs fuel _ _ _ _ _ Hit E) | discriminate].
  - pose proof (fetch_all_pairs fuel _ _ _ _ _ Hit E) as H1.
    unfold pop_or_stop in H.
    destruct (negb (truthy (_cur it1)) && negb (nonempty (_ret it1))).
    + injection H as <- <- <-. split; [exact H1 | discriminate].
    + destruct (_ret it1) as [|x rest] eqn:Eret.
      * injection H as <- <- <-. rewrite Eret. split; [constructor | discriminate].
      * injection H as <- <- <-. inversion H1 as [|y l Hx Hrest]; subst.
        split; [exact Hrest|]. intros x' Hx'. unfold Ok in Hx'. congruence.
Qed.

Lemma drain_all_pairs (fuel n : nat) :
  forall s it,
    all_pairs (_ret it) ->
    all_pairs (fst (drain St (ScanIterPairs_anext St scan) fuel n s it)).
Proof.
  induction n as [|n IH]; intros s it Hit; [constructor|].
  cbn [drain].
  destruct (ScanIterPairs_anext St scan fuel s it) as [[[s' it'] r]|] eqn:E;
    [|constructor].
  destruct (anext_all_pairs fuel s it s' it' r Hit E) as [Hit' Hr].
  destruct r as [e|x].
  - destruct e; constructor.
  - specialize (IH s' it' Hit').
    destruct (drain St (ScanIterPairs_anext St scan) fuel n s' it') as [xs r'].
    cbn [fst] in IH |- *. constructor; [apply Hr; reflexivity | exact IH].
Qed.

End PairsOnly.

(** X14: the pair iterator yields pairs and nothing else.  Against every
    scan primitive, whatever its pages hold and however long they are,
    each item [_ScanIterPairs] yields is a tuple of two. *)
Theorem pairs_iterator_yields_pairs (St : Type) (scan : scan_fn St)
    (fuel n : nat) (s : St) :
  Forall (fun x => is_pair x = true)
    (fst (drain St (ScanIterPairs_anext St scan) fuel n s init)).
Proof. apply drain_all_pairs. constructor. Qed.

(** ** A future is settled once *)

Lemma settle_all_finished (held : result pyval) (attempts : list attempt) :
  settle_all (Finished held) attempts
  = (Finished held, map (fun _ => Some (AssertionError wrong_state)) attempts).
Proof.
  induction attempts as [|a attempts IH]; [reflexivity|].
  cbn [settle_all map].
  replace (settle (Finished held) a)
    with {| fut_after := Finished held; logged := true;
            raised := Some (AssertionError wrong_state) |}
    by (destruct a; reflexivity).
  cbn [fut_after raised]. rewrite IH. reflexivity.
Qed.

Lemma settle_all_cancelled (attempts : list attempt) :
  settle_all Cancelled attempts = (Cancelled, map (fun _ => None) attempts).
Proof.
  induction attempts as [|a attempts IH]; [reflexivity|].
  cbn [settle_all map].
  replace (settle Cancelled a)
    with {| fut_after := Cancelled; logged := true; raised := None |}
    by (destruct a; reflexivity).
  cbn [fut_after raised]. rewrite IH. reflexivity.
Qed.

(** X15: the first settlement stands.  A future from [create_future] takes
    the value or the exception of the first call of [_set_result] or
    [_set_exception]; every later call, of either helper and in any number,
    raises [AssertionError] and changes nothing, so whoever awaits the
    future gets the first outcome.  On a cancelled future no call raises
    and none settles it. *)
Theorem first_settlement_stands (first : attempt) (later : list attempt) :
  settle_all create_future (first :: later)
  = (Finished (outcome_of first),
     None :: map (fun _ => Some (AssertionError wrong_state)) later)
  /\ await (fst (settle_all create_future (first :: later)))
     = Some (outcome_of first)
  /\ settle_all Cancelled (first :: later)
     = (Cancelled, None :: map (fun _ => None) later).
Proof.
  assert (E : settle_all create_future (first :: later)
              = (Finished (outcome_of first),
                 None :: map (fun _ => Some (AssertionError wrong_state)) later)).
  { cbn [settle_all].
    replace (settle create_future first)
      with {| fut_after := Finished (outcome_of first); logged := false;
              raised := None |}
      by (destruct first; reflexivity).
    cbn [fut_after raised]. rewrite settle_all_finished. reflexivity. }
  split; [exact E|]. split; [rewrite E; reflexivity|].
  apply (settle_all_cancelled (first :: later)).
Qed.

(** ** Replies that are not lists, and keys as they go on the wire *)

Lemma zip_same_iter_keys (l : list pyval) :
  Forall (fun x => hashable x = true) l -> hashable_keys (zip_same_iter l).
Proof.
  unfold hashable_keys.
  induction l as [|x|x y l IH] using list_pair_ind; intros H;
    try (cbn [zip_same_iter]; constructor).
  - inversion H; assumption.
  - apply IH. inversion H as [|a l1 _ H1]; subst.
    inversion H1; assumption.
Qed.

Lemma iter_blob_hashable (bs : bytes) :
  Forall (fun x => hashable x = true)
    (map (fun c => PInt (Z.of_N (Byte.to_N c))) bs).
Proof. induction bs; constructor; [reflexivity | assumption]. Qed.

Lemma iter_text_hashable (s : text) :
  Forall (fun x => hashable x = true) (map (fun c => PStr [c]) s).
Proof. induction s; constructor; [reflexivity | assumption]. Qed.

(** X16: a reply that is a blob or a text is not refused.  Unless it is
    QUEUED, [wait_make_dict] iterates it as any sequence and returns a
    mapping: of the bytes of a blob, as integers, taken two by two, or of
    the characters of a text. *)
Theorem make_dict_of_blob_or_text (res : pyval) :
  is_token "QUEUED" res = false ->
  (forall bs,
      base res = PBytes bs \/ base res = PByteArray bs ->
      exists d,
        dict_of (zip_same_iter (map (fun c => PInt (Z.of_N (Byte.to_N c))) bs))
        = Ok d
        /\ wait_make_dict (Finished (Ok res)) = Some (Ok (Mapping d)))
  /\ (forall s,
        base res = PStr s ->
        exists d,
          dict_of (zip_same_iter (map (fun c => PStr [c]) s)) = Ok d
          /\ wait_make_dict (Finished (Ok res)) = Some (Ok (Mapping d))).
Proof.
  intros Hq.
  assert (Hw : forall items d,
             py_iter res = Ok items -> dict_of (zip_same_iter items) = Ok d ->
             wait_make_dict (Finished (Ok res)) = Some (Ok (Mapping d))).
  { intros items d Hi Hd.
    unfold wait_make_dict, await, option_map, rbind, Ok, QUEUED.
    rewrite py_in_token, Hq. unfold Ok in Hi, Hd. rewrite Hi, Hd. reflexivity. }
  split.
  - intros bs Hb.
    destruct (dict_of_hashable _ (zip_same_iter_keys _ (iter_blob_hashable bs)))
      as [d Hd].
    exists d. split; [exact Hd|].
    apply (Hw (map (fun c => PInt (Z.of_N (Byte.to_N c))) bs) d); [|exact Hd].
    unfold py_iter. destruct Hb as [-> | ->]; reflexivity.
  - intros s Hs.
    destruct (dict_of_hashable _ (zip_same_iter_keys _ (iter_text_hashable s)))
      as [d Hd].
    exists d. split; [exact Hd|].
    apply (Hw (map (fun c => PStr [c]) s) d); [|exact Hd].
    unfold py_iter. rewrite Hs. reflexivity.
Qed.

Lemma make_dict_of_blob_or_text_witness :
  exists d,
    dict_of (zip_same_iter
               (map (fun c => PInt (Z.of_N (Byte.to_N c))) (b "OK")))
    = Ok d
    /\ wait_make_dict (Finished (Ok (PBytes (b "OK")))) = Some (Ok (Mapping d)).
Proof.
  apply (proj1 (make_dict_of_blob_or_text (PBytes (b "OK")) eq_refl) (b "OK")).
  left. reflexivity.
Defined.

Lemma coerce_is_canonical (key : pyval) (bs : bytes) :
  coerced_kind key = true ->
  coerced_keys_dict.coerce key = Ok (PBytes bs) -> canonical key = Some bs.
Proof.
  intros Hk. destruct key; try discriminate Hk;
    try (rewrite coerce_not_bytes by reflexivity; rewrite convert_spec);
    cbn [canonical]; unfold Ok.
  - congruence.
  - congruence.
  - rewrite coerce_bytes by reflexivity. unfold Ok. congruence.
  - destruct (Utf8.encode s); [discriminate | congruence].
Qed.

(** X17: a key is looked up under the bytes it is sent as.  For a text,
    integer, float or blob key, the blob the mapping looks up is the bulk
    string [encode_command] writes for that key as an argument: the one is
    [bs] exactly when the other is. *)
Theorem lookup_key_is_wire_argument (key : pyval) (bs : bytes) :
  coerced_kind key = true ->
  (coerced_keys_dict.coerce key = Ok (PBytes bs)
   <-> encode_command0 [key] = Ok (PByteArray (wire [bs]))).
Proof.
  intros Hk. split.
  - intros Hc. apply encode_command0_ok.
    constructor; [apply (coerce_is_canonical key bs Hk Hc) | constructor].
  - intros He.
    destruct (canonical key) as [bs'|] eqn:Ecan.
    + rewrite (encode_command0_ok [key] [bs']) in He
        by (constructor; [exact Ecan | constructor]).
      unfold Ok in He.
      assert (E : [bs'] = [bs]) by (apply wire_injective; congruence).
      injection E as ->. apply coerce_canonical; assumption.
    + pose proof (encode_command_err [] [] key [] [] ltac:(constructor)
                    ltac:(constructor) Ecan) as Herr.
      change (encode_command0 [key] = Err (TypeError_argument key)) in Herr.
      rewrite Herr in He. discriminate He.
Qed.

Lemma lookup_key_is_wire_argument_witness :
  coerced_keys_dict.coerce (PInt 42) = Ok (PBytes (b "42"))
  <-> encode_command0 [PInt 42] = Ok (PByteArray (wire [b "42"])).
Proof.
  apply (lookup_key_is_wire_argument (PInt 42) (b "42")). reflexivity.
Defined.
